(** * The code pool manager of [assets/js/code-manager.js]

    A shallow embedding of the [CodeManager] class and the properties of
    its operations.

    Conventions of the embedding.
    - JavaScript numbers that the class handles (timestamps, counters) are
      integers; they are modelled in [Z].
    - [Date.now()] is read once per public operation: the operation takes the
      reading [now] as an argument.  Operations run to completion on the
      single JavaScript thread, and the claims speak of one "current time".
    - [Math.random()] is an oracle: the manager state carries the sequence
      [entropy] of the values [Math.floor(Math.random() * 90000)] and the
      number [draws] of values consumed so far.  A value is reduced modulo
      90000, so that every sequence is a legal oracle.
    - The array [preGeneratedCodes] holds references to mutable objects.
      Where the class mutates an element it reached through another array
      ([getNextCode]), the embedding carries the index of the element in
      [preGeneratedCodes] along with it and updates the pool at that index.
    - [Array.prototype.sort] is stable; it is modelled by a stable insertion
      sort driven by the same comparator.
    - [savePreGeneratedCodes] only writes [localStorage] and never touches
      [preGeneratedCodes]; it is the identity on the modelled state.  What
      it writes, and what [loadPreGeneratedCodes] reads back at start-up,
      are modelled as documents.  *)

From stdpp Require Import base numbers list strings pretty sorting relations.

Local Open Scope Z_scope.

(** ** Data model *)

(** The values the class writes to the [status] field. *)
Inductive Status : Set := active | retiring | emergency.

Global Instance Status_eq_dec : EqDecision Status.
Proof. solve_decision. Defined.

(** One element of [preGeneratedCodes].  [lastUsed] is absent until
    [markCodeAsUsed] sets it. *)
Record CodeRecord : Set := mkCode {
  code : string;
  generated : Z;
  expires : Z;
  status : Status;
  uses : Z;
  lastUsed : option Z
}.

Global Instance CodeRecord_eq_dec : EqDecision CodeRecord.
Proof. solve_decision. Defined.

(** The manager: the pool and the random oracle. *)
Record CodeManager : Type := mkManager {
  preGeneratedCodes : list CodeRecord;
  entropy : nat → Z;
  draws : nat
}.

(** The constructor's constants. *)
Definition rotationInterval : Z := 3600000.
Definition maxCodes : nat := 20.
Definition minActiveCodes : nat := 5.
Definition maxAttempts : nat := 100.

Definition with_codes (m : CodeManager) (l : list CodeRecord) : CodeManager :=
  mkManager l (entropy m) (draws m).

Definition with_draws (m : CodeManager) (k : nat) : CodeManager :=
  mkManager (preGeneratedCodes m) (entropy m) k.

(** ** [Array.prototype.sort] *)

Section sort.
Context {A : Type} (cmp : A → A → Z).

(** [x] stood before every element of [l] in the array: it stays before
    the elements it does not compare greater than. *)
Fixpoint insert_by (x : A) (l : list A) : list A :=
  match l with
  | [] => [x]
  | y :: l' => if decide (cmp x y ≤ 0) then x :: l else y :: insert_by x l'
  end.

Definition sort_by (l : list A) : list A := foldr insert_by [] l.
End sort.

(** ** Generation *)

(** [Math.floor(10000 + Math.random() * 90000).toString()] at the [k]-th
    call of the oracle. *)
Definition random_code (rnd : nat → Z) (k : nat) : string :=
  pretty (10000 + rnd k `mod` 90000).

(** [this.preGeneratedCodes.some(c => c.code === code)] *)
Definition holds_code (held : list CodeRecord) (s : string) : bool :=
  bool_decide (Exists (λ c, code c = s) held).

(** The [do ... while] loop of [generateUniqueCode]; [retries] is
    [maxAttempts - attempts] after the draw.  Returns the code and the
    position of the oracle. *)
Fixpoint draw_unique (retries : nat) (held : list CodeRecord)
    (rnd : nat → Z) (k : nat) : string * nat :=
  let s := random_code rnd k in
  match retries with
  | O => (s, S k)
  | S retries' =>
      if holds_code held s then draw_unique retries' held rnd (S k)
      else (s, S k)
  end.

Definition generateUniqueCode (m : CodeManager) : string * CodeManager :=
  let '(s, k) := draw_unique (maxAttempts - 1) (preGeneratedCodes m)
                   (entropy m) (draws m) in
  (s, with_draws m k).

(** [trimCodeList] *)
Definition trimCodeList (m : CodeManager) : CodeManager :=
  if decide (maxCodes < length (preGeneratedCodes m))%nat then
    with_codes m
      (take maxCodes
         (sort_by (λ a b, expires b - expires a) (preGeneratedCodes m)))
  else m.

(** The [for] loop of [generateNewCodes]: [n] iterations are left and [i] is
    the loop index.  The pool is not touched while the loop runs. *)
Fixpoint new_codes (n : nat) (i : Z) (now : Z) (m : CodeManager)
    : list CodeRecord * CodeManager :=
  match n with
  | O => ([], m)
  | S n' =>
      let '(s, m1) := generateUniqueCode m in
      let c := {| code := s;
                  generated := now + i * 60000;
                  expires := now + rotationInterval + i * 60000;
                  status := active;
                  uses := 0;
                  lastUsed := None |} in
      let '(cs, m2) := new_codes n' (i + 1) now m1 in
      (c :: cs, m2)
  end.

(** [generateNewCodes(count)] returns [newCodes] and the manager. *)
Definition generateNewCodes (count : nat) (now : Z) (m : CodeManager)
    : list CodeRecord * CodeManager :=
  let '(newCodes, m1) := new_codes count 0 now m in
  (newCodes, trimCodeList (with_codes m1 (preGeneratedCodes m1 ++ newCodes))).

(** ** Queries *)

Definition is_active_at (now : Z) (c : CodeRecord) : Prop :=
  expires c > now ∧ status c = active.

Global Instance is_active_at_dec now c : Decision (is_active_at now c).
Proof. unfold is_active_at. apply _. Defined.

(** [getActiveCodes] over references: each element comes with its index in
    [preGeneratedCodes]. *)
Definition activeRefs (now : Z) (m : CodeManager) : list (nat * CodeRecord) :=
  sort_by (λ a b, generated b.2 - generated a.2)
    (filter (λ r, is_active_at now r.2)
       (imap (λ i c, (i, c)) (preGeneratedCodes m))).

Definition getActiveCodes (now : Z) (m : CodeManager) : list CodeRecord :=
  (activeRefs now m).*2.

(** [generateEmergencyCode] *)
Definition generateEmergencyCode (now : Z) (m : CodeManager)
    : CodeRecord * CodeManager :=
  let '(s, m1) := generateUniqueCode m in
  let emergencyCode := {| code := s;
                          generated := now;
                          expires := now + 3600000;
                          status := emergency;
                          uses := 1;
                          lastUsed := None |} in
  (emergencyCode, with_codes m1 (preGeneratedCodes m1 ++ [emergencyCode])).

Definition use_once (c : CodeRecord) : CodeRecord :=
  {| code := code c; generated := generated c; expires := expires c;
     status := status c; uses := uses c + 1; lastUsed := lastUsed c |}.

(** [getNextCode].  [None] stands for the [TypeError] of reading [uses] of
    [undefined], were [sortedCodes[0]] missing. *)
Definition getNextCode (now : Z) (m : CodeManager)
    : option (CodeRecord * CodeManager) :=
  let activeCodes := activeRefs now m in
  if decide (length activeCodes = 0%nat) then
    Some (generateEmergencyCode now m)
  else
    let sortedCodes := sort_by (λ a b, uses a.2 - uses b.2) activeCodes in
    match sortedCodes !! 0%nat with
    | None => None
    | Some (i, selectedCode) =>
        Some (use_once selectedCode,
              with_codes m (alter use_once i (preGeneratedCodes m)))
    end.

(** ** Consumption and validation *)

Definition use_at (now : Z) (c : CodeRecord) : CodeRecord :=
  {| code := code c; generated := generated c; expires := expires c;
     status := status c; uses := uses c + 1; lastUsed := Some now |}.

(** [this.preGeneratedCodes.find(c => c.code === codeString)], with the index
    of the element found. *)
Definition find_code (codeString : string) (m : CodeManager)
    : option (nat * CodeRecord) :=
  list_find (λ c, code c = codeString) (preGeneratedCodes m).

(** [markCodeAsUsed] *)
Definition markCodeAsUsed (codeString : string) (now : Z) (m : CodeManager)
    : CodeManager :=
  match find_code codeString m with
  | Some (i, _) => with_codes m (alter (use_at now) i (preGeneratedCodes m))
  | None => m
  end.

(** The object [validateCode] returns: [{ valid: false, reason }] or
    [{ valid: true, code, timeLeft, uses }]. *)
Inductive Validation : Set :=
  | Invalid (reason : string)
  | Valid (c : CodeRecord) (timeLeft : Z) (used : Z).

Definition NotFound : string := "Code not found".
Definition Expired : string := "Code expired".
Definition Inactive : string := "Code inactive".

(** [validateCode] *)
Definition validateCode (codeString : string) (now : Z) (m : CodeManager)
    : Validation :=
  match find_code codeString m with
  | None => Invalid NotFound
  | Some (_, c) =>
      if decide (expires c < now) then Invalid Expired
      else if decide (status c ≠ active ∧ status c ≠ emergency)
      then Invalid Inactive
      else Valid c (expires c - now) (uses c)
  end.

(** ** Expiry *)

(** [code.lastUsed && (now - code.lastUsed) < 300000]: an absent [lastUsed]
    and the number [0] are both falsy. *)
Definition used_recently (now : Z) (c : CodeRecord) : Prop :=
  match lastUsed c with
  | Some t => t ≠ 0 ∧ now - t < 300000
  | None => False
  end.

Global Instance used_recently_dec now c : Decision (used_recently now c).
Proof. unfold used_recently. destruct (lastUsed c); apply _. Defined.

(** The predicate of the [filter] in [cleanExpiredCodes]. *)
Definition kept_at (now : Z) (c : CodeRecord) : Prop :=
  expires c > now ∨ used_recently now c.

Global Instance kept_at_dec now c : Decision (kept_at now c).
Proof. unfold kept_at. apply _. Defined.

(** [cleanExpiredCodes] returns [cleanedCount] and the manager. *)
Definition cleanExpiredCodes (now : Z) (m : CodeManager) : nat * CodeManager :=
  let beforeCount := length (preGeneratedCodes m) in
  let m1 := with_codes m (filter (kept_at now) (preGeneratedCodes m)) in
  ((beforeCount - length (preGeneratedCodes m1))%nat, m1).

(** ** Rotation and maintenance *)

(** The body of the [forEach] in [rotateActiveCodes]. *)
Definition retire (now : Z) (c : CodeRecord) : CodeRecord :=
  if decide (expires c < now + 1800000 ∧ status c = active) then
    {| code := code c; generated := generated c; expires := expires c;
       status := retiring; uses := uses c; lastUsed := lastUsed c |}
  else c.

(** [maintainCodePool] *)
Definition maintainCodePool (now : Z) (m : CodeManager) : CodeManager :=
  let activeCodes := getActiveCodes now m in
  if decide (length activeCodes < minActiveCodes)%nat then
    let needed := (minActiveCodes - length activeCodes)%nat in
    (generateNewCodes needed now m).2
  else m.

(** [rotateActiveCodes] *)
Definition rotateActiveCodes (now : Z) (m : CodeManager) : CodeManager :=
  let m1 := (cleanExpiredCodes now m).2 in
  let activeCodes := getActiveCodes now m1 in
  let m2 :=
    if decide (length activeCodes < minActiveCodes)%nat then
      let needed := (minActiveCodes - length activeCodes)%nat in
      (generateNewCodes needed now m1).2
    else m1 in
  with_codes m2 (retire now <$> preGeneratedCodes m2).

(** [createInitialCodeSet] *)
Definition createInitialCodeSet (now : Z) (m : CodeManager) : CodeManager :=
  with_codes m
    [ mkCode "45789" (now - 300000) (now + 3300000) active 0 None;
      mkCode "23456" (now - 600000) (now + 3000000) active 0 None;
      mkCode "67890" (now - 900000) (now + 2700000) active 0 None;
      mkCode "34567" (now - 1200000) (now + 2400000) active 0 None;
      mkCode "78901" (now - 1500000) (now + 2100000) active 0 None;
      mkCode "12345" (now - 1800000) (now + 1800000) active 0 None;
      mkCode "56789" (now - 2100000) (now + 1500000) active 0 None;
      mkCode "98765" (now - 2400000) (now + 1200000) active 0 None ].

(** [resetCodes] *)
Definition resetCodes (now : Z) (m : CodeManager) : CodeManager :=
  createInitialCodeSet now (with_codes m []).

(** ** Backup *)

(** The documents [JSON.stringify] writes and [JSON.parse] reads. *)
#[warnings="-register-all"] Inductive json : Set :=
  | JNull
  | JBool (b : bool)
  | JNum (z : Z)
  | JStr (s : string)
  | JArr (elements : list json)
  | JObj (members : list (string * json)).

(** Property access on a parsed document: of a repeated key [JSON.parse]
    keeps the last value. *)
Definition member (key : string) (j : json) : option json :=
  match j with
  | JObj members => snd <$> (snd <$> list_find (λ kv, kv.1 = key) (reverse members))
  | _ => None
  end.

Definition status_name (s : Status) : string :=
  match s with
  | active => "active"
  | retiring => "retiring"
  | emergency => "emergency"
  end.

Definition status_of_name (s : string) : option Status :=
  if decide (s = "active") then Some active
  else if decide (s = "retiring") then Some retiring
  else if decide (s = "emergency") then Some emergency
  else None.

(** What [JSON.stringify] writes for one pool element. *)
Definition json_of_code (c : CodeRecord) : json :=
  JObj ([ ("code", JStr (code c));
          ("generated", JNum (generated c));
          ("expires", JNum (expires c));
          ("status", JStr (status_name (status c)));
          ("uses", JNum (uses c)) ]
        ++ match lastUsed c with
           | Some t => [ ("lastUsed", JNum t) ]
           | None => []
           end).

(** The pool element a parsed object stands for; [None] for a document that
    is not a code record, which the embedding does not cover. *)
Definition code_of_json (j : json) : option CodeRecord :=
  match member "code" j, member "generated" j, member "expires" j,
        member "status" j, member "uses" j with
  | Some (JStr s), Some (JNum g), Some (JNum e), Some (JStr st), Some (JNum u) =>
      match status_of_name st, member "lastUsed" j with
      | Some st', None => Some (mkCode s g e st' u None)
      | Some st', Some (JNum t) => Some (mkCode s g e st' u (Some t))
      | _, _ => None
      end
  | _, _, _, _, _ => None
  end.

(** [exportCodes]: the document whose text the method returns. *)
Definition exportCodes (now : Z) (m : CodeManager) : json :=
  JObj [ ("codes", JArr (json_of_code <$> preGeneratedCodes m));
         ("timestamp", JNum now);
         ("version", JStr "1.0") ].

(** The object [importCodes] returns: [{ success: true, imported }],
    [{ success: false, error: 'Invalid data format' }], or
    [{ success: false, error: error.message }] for a caught exception. *)
Inductive ImportResult : Set :=
  | Imported (imported : nat)
  | InvalidFormat
  | Thrown.

(** [importCodes].  [jsonData] is what [JSON.parse] makes of the text, [None]
    when it throws.  The outer [None] is returned for an array with an
    element that is not a code record, which the embedding does not cover. *)
Definition importCodes (jsonData : option json) (now : Z) (m : CodeManager)
    : option (ImportResult * CodeManager) :=
  match jsonData with
  | None => Some (Thrown, m)
  | Some JNull => Some (Thrown, m)
  | Some importData =>
      match member "codes" importData with
      | Some (JArr codes) =>
          l ← mapM code_of_json codes;
          let m1 := (cleanExpiredCodes now (with_codes m l)).2 in
          Some (Imported (length codes), m1)
      | _ => Some (InvalidFormat, m)
      end
  end.

(** ** Start-up *)

(** What [savePreGeneratedCodes] stores under the key [pregenerated_codes]:
    the text of this document. *)
Definition savePreGeneratedCodes (m : CodeManager) : json :=
  JArr (json_of_code <$> preGeneratedCodes m).

(** The item [localStorage.getItem('pregenerated_codes')] returns, after
    [JSON.parse]: no item (or the empty string, which is falsy too), a text
    [JSON.parse] throws on, or a document. *)
Inductive StoredItem : Set :=
  | NoItem
  | Unparsable
  | Parsed (j : json).

(** [loadPreGeneratedCodes].  A document that is not an array makes
    [cleanExpiredCodes] throw a [TypeError] ([filter] is not a function, or
    [length] is read of [null]), which the [catch] answers with the initial
    code set, as it answers a parse error.  [None] is returned for an array
    with an element that is not a code record, which the embedding does not
    cover. *)
Definition loadPreGeneratedCodes (stored : StoredItem) (now : Z)
    (m : CodeManager) : option CodeManager :=
  match stored with
  | NoItem => Some (createInitialCodeSet now m)
  | Unparsable => Some (createInitialCodeSet now m)
  | Parsed (JArr elements) =>
      l ← mapM code_of_json elements;
      Some (cleanExpiredCodes now (with_codes m l)).2
  | Parsed _ => Some (createInitialCodeSet now m)
  end.

(** [generateInitialCodes]: the argument of the [generateNewCodes] call it
    schedules two seconds later, [None] when it schedules nothing. *)
Definition generateInitialCodes (now : Z) (m : CodeManager) : option nat :=
  let activeCodes := getActiveCodes now m in
  if decide (length activeCodes < minActiveCodes)%nat then
    Some (minActiveCodes - length activeCodes)%nat
  else None.

(** ** Statistics *)

(** The counts in the object [getCodeStats] returns.  Its other fields are
    left out: [averageUses] is a floating-point quotient, and [lastUpdate]
    and [nextRotation] are read from [localStorage]. *)
Record CodeStats : Set := mkStats {
  totalCodes : nat;
  activeCodes : nat;
  expiringSoon : nat;
  totalUses : Z
}.

(** [this.preGeneratedCodes.reduce((sum, code) => sum + code.uses, 0)] *)
Definition sum_uses (l : list CodeRecord) : Z :=
  foldl (λ sum c, sum + uses c) 0 l.

(** [getCodeStats] *)
Definition getCodeStats (now : Z) (m : CodeManager) : CodeStats :=
  let active := getActiveCodes now m in
  let soon := filter (λ c, expires c < now + 1800000) active in
  {| totalCodes := length (preGeneratedCodes m);
     activeCodes := length active;
     expiringSoon := length soon;
     totalUses := sum_uses (preGeneratedCodes m) |}.

(** ** The page of alternative codes ([assets/js/alt-codes.js]) *)

(** [generateStaticCodes] *)
Definition generateStaticCodes (now : Z) : list CodeRecord :=
  [ mkCode "45789" (now - 300000) (now + 3300000) active 12 None;
    mkCode "23456" (now - 600000) (now + 3000000) active 8 None;
    mkCode "67890" (now - 900000) (now + 2700000) active 15 None;
    mkCode "34567" (now - 1200000) (now + 2400000) active 5 None;
    mkCode "78901" (now - 1500000) (now + 2100000) active 20 None ].

(** [loadAndDisplayCodes]: the list it hands to [displayCodes] and
    [updateStatistics].  [codeManager] is [None] while the global is
    undefined. *)
Definition loadAndDisplayCodes (now : Z) (codeManager : option CodeManager)
    : list CodeRecord :=
  let activeCodes :=
    match codeManager with
    | Some m => getActiveCodes now m
    | None => []
    end in
  if decide (length activeCodes = 0%nat) then generateStaticCodes now
  else activeCodes.

(** [isExpiringSoon] of [createCodeCard]: the card is labelled as expiring
    soon. *)
Definition isExpiringSoon (now : Z) (codeData : CodeRecord) : Prop :=
  expires codeData - now < 1800000.

(** ** Operations *)

(** One call of a method that works on the pool the class made itself;
    [importCodes] and [loadPreGeneratedCodes], which take the pool from
    outside, are not among them. *)
Inductive operation : CodeManager → CodeManager → Prop :=
  | op_createInitialCodeSet now m :
      operation m (createInitialCodeSet now m)
  | op_resetCodes now m :
      operation m (resetCodes now m)
  | op_generateNewCodes count now m :
      operation m (generateNewCodes count now m).2
  | op_getNextCode now m c m' :
      getNextCode now m = Some (c, m') → operation m m'
  | op_markCodeAsUsed s now m :
      operation m (markCodeAsUsed s now m)
  | op_cleanExpiredCodes now m :
      operation m (cleanExpiredCodes now m).2
  | op_trimCodeList m :
      operation m (trimCodeList m)
  | op_maintainCodePool now m :
      operation m (maintainCodePool now m)
  | op_rotateActiveCodes now m :
      operation m (rotateActiveCodes now m).

(** What every record the class makes satisfies: it lives one hour, its
    [uses] is not negative, and an [emergency] record was used. *)
Definition sound (c : CodeRecord) : Prop :=
  expires c = generated c + 3600000 ∧ 0 ≤ uses c ∧
  (status c = emergency → 1 ≤ uses c).

(** A decimal digit. *)
Definition is_digit (a : Ascii.ascii) : Prop :=
  (48 ≤ Ascii.nat_of_ascii a ≤ 57)%nat.

(** ** Vocabulary of the specification *)

(** A valid record in the words of the specification: not expired, and
    [active] or [emergency]. *)
Definition is_valid_at (now : Z) (c : CodeRecord) : Prop :=
  expires c > now ∧ (status c = active ∨ status c = emergency).

Global Instance is_valid_at_dec now c : Decision (is_valid_at now c).
Proof. unfold is_valid_at. apply _. Defined.

(** An active code that the [forEach] of [rotateActiveCodes] turns to
    [retiring]: it expires less than thirty minutes after [now]. *)
Definition retires_at (now : Z) (c : CodeRecord) : Prop :=
  is_active_at now c ∧ expires c < now + 1800000.

Global Instance retires_at_dec now c : Decision (retires_at now c).
Proof. unfold retires_at. apply _. Defined.

(** The grace window in the words of the specification: a record used
    recently is retained for five minutes past [expires]. *)
Definition in_grace_window (now : Z) (c : CodeRecord) : Prop :=
  now - expires c < 300000 ∧ used_recently now c.

Global Instance in_grace_window_dec now c : Decision (in_grace_window now c).
Proof. unfold in_grace_window. apply _. Defined.

(** * Properties *)

(** ** The sort *)

Section sort_facts.
Context {A : Type} (cmp : A → A → Z).

Lemma insert_by_Permutation x l : insert_by cmp x l ≡ₚ x :: l.
Proof.
  induction l as [|y l IH]; simpl; [done|].
  case_decide; [done|]. rewrite IH. apply Permutation_swap.
Qed.

Lemma sort_by_Permutation l : sort_by cmp l ≡ₚ l.
Proof.
  induction l as [|x l IH]; simpl; [done|].
  by rewrite insert_by_Permutation, IH.
Qed.

Lemma length_sort_by l : length (sort_by cmp l) = length l.
Proof. by rewrite sort_by_Permutation. Qed.

Lemma sort_by_nil_inv l : sort_by cmp l = [] → l = [].
Proof.
  intros H. apply length_zero_iff_nil.
  by rewrite <- length_sort_by, H.
Qed.

(** The comparators of the class order by a numeric key: the order
    [cmp a b ≤ 0] is then total and transitive, and the sort sorts. *)
Context (total : ∀ a b, cmp a b ≤ 0 ∨ cmp b a ≤ 0).
Context (trans : ∀ a b c, cmp a b ≤ 0 → cmp b c ≤ 0 → cmp a c ≤ 0).

Lemma insert_by_sorted x l :
  StronglySorted (λ a b, cmp a b ≤ 0) l →
  StronglySorted (λ a b, cmp a b ≤ 0) (insert_by cmp x l).
Proof.
  induction 1 as [|y l Hl IH Hy]; simpl.
  - repeat constructor.
  - case_decide as Hxy.
    + constructor; [by constructor|].
      constructor; [done|].
      eapply Forall_impl; [exact Hy|]. intros z Hz. by eapply trans.
    + constructor; [done|].
      rewrite insert_by_Permutation. constructor; [|done].
      destruct (total x y); [done|done].
Qed.

Lemma sort_by_sorted l : StronglySorted (λ a b, cmp a b ≤ 0) (sort_by cmp l).
Proof.
  induction l as [|x l IH]; simpl; [constructor|].
  by apply insert_by_sorted.
Qed.
End sort_facts.

(** ** Trimming *)

Lemma by_expiry_sorted (l : list CodeRecord) :
  StronglySorted (λ a b, expires b - expires a ≤ 0)
    (sort_by (λ a b, expires b - expires a) l).
Proof.
  apply (sort_by_sorted (λ a b, expires b - expires a)).
  - intros a b; simpl; lia.
  - intros a b c; simpl; lia.
Qed.

(** C6.  After [trimCodeList] the pool holds at most [maxCodes] records.  The
    pool before splits into the records retained and the records dropped; as
    many as fit are retained, and no dropped record expires later than a
    retained one. *)
Theorem trimCodeList_keeps_latest (m : CodeManager) :
  let pool := preGeneratedCodes m in
  let pool' := preGeneratedCodes (trimCodeList m) in
  (length pool' ≤ maxCodes)%nat ∧
  ∃ dropped : list CodeRecord,
    pool ≡ₚ pool' ++ dropped ∧
    length pool' = (length pool `min` maxCodes)%nat ∧
    ∀ k d, k ∈ pool' → d ∈ dropped → expires d ≤ expires k.
Proof.
  intros pool pool'. subst pool'. unfold trimCodeList.
  fold pool. case_decide as Hlen; simpl; unfold maxCodes in *.
  - set (sorted := sort_by (λ a b, expires b - expires a) pool).
    assert (length sorted = length pool) as Hs by apply length_sort_by.
    split; [rewrite length_take; lia|].
    exists (drop maxCodes sorted). split; [|split].
    + rewrite take_drop. symmetry. apply sort_by_Permutation.
    + rewrite length_take. lia.
    + intros k d Hk Hd.
      pose proof (by_expiry_sorted pool) as Hsorted. fold sorted in Hsorted.
      rewrite <- (take_drop maxCodes sorted) in Hsorted.
      pose proof (StronglySorted_app_1_elem_of _ _ _ k d Hsorted Hk Hd).
      simpl in *. lia.
  - subst pool. split; [lia|]. exists []. split; [|split].
    + by rewrite app_nil_r.
    + lia.
    + intros k d _ Hd. by apply elem_of_nil in Hd.
Qed.

(** ** Generation *)

Lemma holds_code_true held s :
  holds_code held s = true ↔ ∃ c, c ∈ held ∧ code c = s.
Proof.
  unfold holds_code. rewrite bool_decide_eq_true, Exists_exists. done.
Qed.

Lemma holds_code_nil s : holds_code [] s = false.
Proof.
  apply not_true_is_false. rewrite holds_code_true.
  intros (c & Hc & _). by apply elem_of_nil in Hc.
Qed.

(** The loop stops at the first draw that is not held, or at the last of the
    attempts whatever it draws. *)
Lemma draw_unique_spec retries held rnd k :
  ∃ j : nat,
    (j ≤ retries)%nat ∧
    draw_unique retries held rnd k = (random_code rnd (k + j), S (k + j)) ∧
    (∀ i : nat, (i < j)%nat → holds_code held (random_code rnd (k + i)) = true) ∧
    (holds_code held (random_code rnd (k + j)) = false ∨ j = retries).
Proof.
  revert k. induction retries as [|n IH]; intros k; simpl.
  - exists 0%nat. rewrite Nat.add_0_r. split_and!; [lia|done|lia|by right].
  - destruct (holds_code held (random_code rnd k)) eqn:Hk.
    + destruct (IH (S k)) as (j & Hj & Heq & Hbefore & Hlast).
      exists (S j). replace (k + S j)%nat with (S k + j)%nat by lia.
      split_and!; [lia|done| |].
      * intros [|i] Hi; [by rewrite Nat.add_0_r|].
        replace (k + S i)%nat with (S k + i)%nat by lia. apply Hbefore. lia.
      * destruct Hlast; [by left|right; lia].
    + exists 0%nat. rewrite Nat.add_0_r. split_and!; [lia|done|lia|by left].
Qed.

Lemma draw_unique_nil retries rnd k :
  draw_unique retries [] rnd k = (random_code rnd k, S k).
Proof.
  destruct retries as [|n]; [done|].
  cbn [draw_unique]. by rewrite holds_code_nil.
Qed.

Lemma generateUniqueCode_nil rnd k :
  generateUniqueCode (mkManager [] rnd k)
  = (random_code rnd k, mkManager [] rnd (S k)).
Proof.
  unfold generateUniqueCode. cbn [preGeneratedCodes entropy draws].
  by rewrite draw_unique_nil.
Qed.

Lemma generateUniqueCode_pool m :
  preGeneratedCodes (generateUniqueCode m).2 = preGeneratedCodes m ∧
  entropy (generateUniqueCode m).2 = entropy m.
Proof.
  unfold generateUniqueCode.
  by destruct (draw_unique _ _ _ _) as [s k].
Qed.

(** The loop of [generateNewCodes] leaves the pool alone and makes [n]
    records, [active], unused, expiring an interval after [now] or later. *)
Lemma new_codes_spec n i now m :
  length (new_codes n i now m).1 = n ∧
  preGeneratedCodes (new_codes n i now m).2 = preGeneratedCodes m ∧
  entropy (new_codes n i now m).2 = entropy m ∧
  Forall (λ c, status c = active ∧ uses c = 0 ∧
               now + rotationInterval + i * 60000 ≤ expires c)
    (new_codes n i now m).1.
Proof.
  revert i m. induction n as [|n IH]; intros i m; simpl.
  - by split_and!.
  - pose proof (generateUniqueCode_pool m) as [Hp He].
    destruct (generateUniqueCode m) as [s m1]. simpl in Hp, He.
    specialize (IH (i + 1) m1).
    destruct (new_codes n (i + 1) now m1) as [cs m2]. simpl in *.
    destruct IH as (Hlen & Hpool & Hent & Hall).
    split_and!; [lia|congruence|congruence|].
    constructor; [simpl; split_and!; [done|done|lia]|].
    eapply Forall_impl; [exact Hall|]. simpl. intros c (? & ? & ?).
    split_and!; [done|done|lia].
Qed.

(** C3, amended.  On an empty pool [generateNewCodes(3)] returns exactly three
    records, each [active] with [uses] 0, and their code strings are
    pairwise distinct whenever the three numbers drawn first are. *)
Theorem generateNewCodes_empty_pool (now : Z) (rnd : nat → Z) (k : nat) :
  let m := mkManager [] rnd k in
  ∃ c0 c1 c2 : CodeRecord,
    (generateNewCodes 3 now m).1 = [c0; c1; c2] ∧
    Forall (λ c, status c = active ∧ uses c = 0) [c0; c1; c2] ∧
    (NoDup [rnd k `mod` 90000; rnd (S k) `mod` 90000;
            rnd (S (S k)) `mod` 90000] →
     NoDup [code c0; code c1; code c2]).
Proof.
  intros m. subst m. unfold generateNewCodes.
  cbn [new_codes]. rewrite generateUniqueCode_nil.
  cbn [new_codes]. rewrite generateUniqueCode_nil.
  cbn [new_codes]. rewrite generateUniqueCode_nil.
  cbn [fst]. eexists _, _, _. split; [reflexivity|]. split.
  - repeat constructor.
  - simpl. unfold random_code. rewrite !NoDup_cons, !elem_of_cons.
    intros (H0 & H1 & _). split_and!.
    + intros [Heq|[Heq|Hnil]].
      * apply (inj pretty) in Heq. apply H0. left. lia.
      * apply (inj pretty) in Heq. apply H0. right; left. lia.
      * by apply elem_of_nil in Hnil.
    + intros [Heq|Hnil].
      * apply (inj pretty) in Heq. apply H1. left. lia.
      * by apply elem_of_nil in Hnil.
    + intros Hnil. by apply elem_of_nil in Hnil.
    + constructor.
Qed.

(** C3, as stated, fails: when the oracle repeats a number the three codes
    are the same string. *)
Lemma generateNewCodes_repeats_code :
  let m := mkManager [] (λ _, 7) 0 in
  code <$> (generateNewCodes 3 0 m).1 = ["10007"; "10007"; "10007"] ∧
  ¬ NoDup (code <$> (generateNewCodes 3 0 m).1).
Proof.
  assert (code <$> (generateNewCodes 3 0 (mkManager [] (λ _, 7) 0)).1
          = ["10007"; "10007"; "10007"]) as Heq by (vm_compute; reflexivity).
  cbv zeta. split; [exact Heq|]. rewrite Heq.
  rewrite NoDup_cons. intros [Hin _]. apply Hin. by left.
Qed.

(** ** Active codes *)

Lemma elem_of_activeRefs now m i c :
  (i, c) ∈ activeRefs now m ↔
  preGeneratedCodes m !! i = Some c ∧ is_active_at now c.
Proof.
  unfold activeRefs. rewrite sort_by_Permutation, list_elem_of_filter.
  rewrite elem_of_lookup_imap. simpl. split.
  - intros (Hact & j & c' & Heq & Hj). by simplify_eq.
  - intros (Hi & Hact). split; [done|]. by exists i, c.
Qed.

Lemma filter_refs_snd (P : CodeRecord → Prop) `{∀ c, Decision (P c)}
    (g : nat → nat) (l : list CodeRecord) :
  (filter (λ r : nat * CodeRecord, P r.2) (imap (λ i c, (g i, c)) l)).*2
  = filter P l.
Proof.
  revert g. induction l as [|c l IH]; intros g; [done|].
  rewrite imap_cons, !filter_cons. simpl.
  specialize (IH (g ∘ S)). unfold compose in *.
  case_decide; [rewrite fmap_cons; simpl|]; by rewrite IH.
Qed.

Lemma getActiveCodes_Permutation now m :
  getActiveCodes now m ≡ₚ filter (is_active_at now) (preGeneratedCodes m).
Proof.
  unfold getActiveCodes, activeRefs. rewrite sort_by_Permutation.
  by rewrite (filter_refs_snd (is_active_at now) (λ i, i)).
Qed.

Lemma length_getActiveCodes now m :
  length (getActiveCodes now m)
  = length (filter (is_active_at now) (preGeneratedCodes m)).
Proof. by rewrite getActiveCodes_Permutation. Qed.

Lemma elem_of_getActiveCodes now m c :
  c ∈ getActiveCodes now m ↔ c ∈ preGeneratedCodes m ∧ is_active_at now c.
Proof. rewrite getActiveCodes_Permutation, list_elem_of_filter. tauto. Qed.

Lemma length_activeRefs now m :
  length (activeRefs now m) = length (getActiveCodes now m).
Proof. unfold getActiveCodes. by rewrite length_fmap. Qed.

(** The two branches of [getNextCode]. *)
Lemma getNextCode_emergency now m :
  getActiveCodes now m = [] →
  getNextCode now m = Some (generateEmergencyCode now m).
Proof.
  intros Hnil. unfold getNextCode.
  rewrite decide_True; [done|]. by rewrite length_activeRefs, Hnil.
Qed.

Lemma getNextCode_active now m :
  getActiveCodes now m ≠ [] →
  ∃ i c0, (i, c0) ∈ activeRefs now m ∧
    getNextCode now m
    = Some (use_once c0,
            with_codes m (alter use_once i (preGeneratedCodes m))).
Proof.
  intros Hne. unfold getNextCode.
  rewrite decide_False; last first.
  { rewrite length_activeRefs. by intros ?%length_zero_iff_nil. }
  set (sortedCodes := sort_by _ (activeRefs now m)).
  destruct (sortedCodes !! 0%nat) as [[i c0]|] eqn:Hhd.
  - exists i, c0. split; [|done].
    apply list_elem_of_lookup_2 in Hhd.
    by rewrite <- (sort_by_Permutation (λ a b, uses a.2 - uses b.2)).
  - apply lookup_ge_None in Hhd. unfold sortedCodes in Hhd.
    rewrite length_sort_by, length_activeRefs in Hhd.
    destruct (getActiveCodes now m); [done|simpl in Hhd; lia].
Qed.

Lemma generateEmergencyCode_spec now m :
  let r := generateEmergencyCode now m in
  status r.1 = emergency ∧ uses r.1 = 1 ∧
  code r.1 = (generateUniqueCode m).1 ∧
  preGeneratedCodes r.2 = preGeneratedCodes m ++ [r.1].
Proof.
  unfold generateEmergencyCode.
  pose proof (generateUniqueCode_pool m) as [Hp _].
  destruct (generateUniqueCode m) as [s m1]. simpl in *.
  by rewrite Hp.
Qed.

(** C5.  On an empty pool [getNextCode] returns an [emergency] record with
    [uses] 1 and leaves the pool one record longer; on every pool it returns
    a record. *)
Theorem getNextCode_never_fails (now : Z) (rnd : nat → Z) (k : nat)
    (m : CodeManager) :
  let empty := mkManager [] rnd k in
  (∃ c m', getNextCode now empty = Some (c, m') ∧
     status c = emergency ∧ uses c = 1 ∧
     length (preGeneratedCodes m') = S (length (preGeneratedCodes empty))) ∧
  is_Some (getNextCode now m).
Proof.
  intros empty. split.
  - pose proof (generateEmergencyCode_spec now empty) as (Hs & Hu & _ & Hp).
    destruct (generateEmergencyCode now empty) as [c m'] eqn:Hgen.
    exists c, m'. simpl in *. split_and!; [|done|done|by rewrite Hp].
    by rewrite <- Hgen.
  - destruct (decide (getActiveCodes now m = [])) as [Hnil|Hne].
    + by rewrite getNextCode_emergency.
    + destruct (getNextCode_active now m Hne) as (i & c0 & _ & ->). done.
Qed.

Lemma generateUniqueCode_fresh m :
  holds_code (preGeneratedCodes m) (generateUniqueCode m).1 = false ∨
  ∀ j : nat, (j < maxAttempts)%nat →
    holds_code (preGeneratedCodes m) (random_code (entropy m) (draws m + j))
    = true.
Proof.
  unfold generateUniqueCode.
  destruct (draw_unique_spec (maxAttempts - 1) (preGeneratedCodes m)
              (entropy m) (draws m)) as (j & Hj & -> & Hbefore & Hlast).
  simpl.
  destruct (holds_code (preGeneratedCodes m)
              (random_code (entropy m) (draws m + j))) eqn:Hheld; [|by left].
  right. destruct Hlast as [?| ->]; [done|].
  intros i Hi. destruct (decide (i = maxAttempts - 1)%nat) as [->|Hne].
  - exact Hheld.
  - apply Hbefore. unfold maxAttempts in *. lia.
Qed.

(** What [getNextCode] returns, with the index [i] in the pool afterwards of
    the object returned: a record of [getActiveCodes] used once more, or a
    record it has just appended. *)
Lemma getNextCode_cases now m c m' :
  getNextCode now m = Some (c, m') →
  ∃ i : nat, preGeneratedCodes m' !! i = Some c ∧
    ((∃ c0, preGeneratedCodes m !! i = Some c0 ∧
        c0 ∈ getActiveCodes now m ∧ is_active_at now c0 ∧
        c = use_once c0 ∧
        preGeneratedCodes m' = alter use_once i (preGeneratedCodes m)) ∨
     (i = length (preGeneratedCodes m) ∧
        getActiveCodes now m = [] ∧
        (c, m') = generateEmergencyCode now m ∧
        preGeneratedCodes m' = preGeneratedCodes m ++ [c])).
Proof.
  intros Hnext.
  destruct (decide (getActiveCodes now m = [])) as [Hnil|Hne].
  - rewrite getNextCode_emergency in Hnext by done.
    pose proof (generateEmergencyCode_spec now m) as (_ & _ & _ & Hp).
    injection Hnext as Hgen. rewrite Hgen in Hp. simpl in Hp.
    exists (length (preGeneratedCodes m)). split.
    + rewrite Hp. by apply list_lookup_middle.
    + right. by split_and!.
  - destruct (getNextCode_active now m Hne) as (i & c0 & Href & Heq).
    rewrite Heq in Hnext. injection Hnext as <- <-.
    apply elem_of_activeRefs in Href as [Hi Hact].
    exists i. simpl. split.
    + by rewrite list_lookup_alter_eq, Hi.
    + left. exists c0. split_and!; try done.
      apply elem_of_getActiveCodes. split; [|done].
      by eapply list_elem_of_lookup_2.
Qed.




(** ** Validation *)

Lemma validateCode_found s now m i c :
  find_code s m = Some (i, c) →
  validateCode s now m =
    if decide (expires c < now) then Invalid Expired
    else if decide (status c = retiring) then Invalid Inactive
    else Valid c (expires c - now) (uses c).
Proof.
  intros Hfind. unfold validateCode. rewrite Hfind.
  case_decide; [done|].
  destruct (status c); repeat destruct (decide _);
    first [reflexivity | exfalso; intuition congruence].
Qed.

(** A string that is the code of no record is not found. *)
Lemma validateCode_unknown s now m :
  (∀ c, c ∈ preGeneratedCodes m → code c ≠ s) →
  validateCode s now m = Invalid NotFound.
Proof.
  intros Hno. unfold validateCode, find_code.
  destruct (list_find _ _) as [[i c]|] eqn:Hfind; [|done].
  apply list_find_Some in Hfind as (Hi & Hc & _).
  destruct (Hno c); [by eapply list_elem_of_lookup_2|done].
Qed.

(** A record that expired before [now] is refused as expired. *)
Lemma validateCode_expired s now m i c :
  find_code s m = Some (i, c) → expires c < now →
  validateCode s now m = Invalid Expired.
Proof.
  intros Hfind Hexp. rewrite (validateCode_found s now m i c Hfind).
  by rewrite decide_True.
Qed.

(** Only [active] and [emergency] records validate. *)
Lemma validateCode_valid_status s now m c timeLeft used :
  validateCode s now m = Valid c timeLeft used →
  (status c = active ∨ status c = emergency) ∧ now ≤ expires c.
Proof.
  unfold validateCode. destruct (find_code s m) as [[i c']|]; [|done].
  repeat case_decide; try done. intros [= <- _ _].
  split; [|lia]. destruct (status c'); naive_solver.
Qed.

(** C2.  At the instant a record expires, [validateCode] still accepts it:
    the pool is the initial code set made at time 0, and at time 1200000,
    the [expires] of the record with code 98765, the record validates with
    no time left, while [getActiveCodes] leaves it out and
    [cleanExpiredCodes] removes it. *)
Theorem validateCode_accepts_at_expiry_instant :
  let m := createInitialCodeSet 0 (mkManager [] (λ _, 0) 0) in
  let c := mkCode "98765" (-2400000) 1200000 active 0 None in
  preGeneratedCodes m !! 7%nat = Some c ∧
  validateCode "98765" (expires c) m = Valid c 0 0 ∧
  (c ∉ getActiveCodes (expires c) m) ∧
  (c ∉ preGeneratedCodes (cleanExpiredCodes (expires c) m).2).
Proof.
  cbv zeta. split_and!.
  - reflexivity.
  - vm_compute. reflexivity.
  - rewrite elem_of_getActiveCodes. intros [_ [Hexp _]]. simpl in Hexp. lia.
  - unfold cleanExpiredCodes. cbn [snd with_codes preGeneratedCodes].
    rewrite list_elem_of_filter. intros [[Hexp|Hused] _].
    + simpl in Hexp. lia.
    + by unfold used_recently in Hused.
Qed.

(** C7, amended.  A [retiring] record that has not expired is refused by
    [validateCode] as inactive, when it is the record [find] reaches for its
    code. *)
Theorem validateCode_refuses_retiring (s : string) (now : Z) (m : CodeManager)
    (i : nat) (c : CodeRecord) :
  find_code s m = Some (i, c) →
  status c = retiring →
  expires c > now →
  validateCode s now m = Invalid Inactive.
Proof.
  intros Hfind Hst Hexp. rewrite (validateCode_found s now m i c Hfind).
  rewrite decide_False by lia. by rewrite decide_True.
Qed.

Lemma validateCode_refuses_retiring_witness :
  validateCode "23456" 100
    (mkManager [mkCode "23456" 0 500 retiring 0 None] (λ _, 0) 0)
  = Invalid Inactive.
Proof.
  apply (validateCode_refuses_retiring "23456" 100
           (mkManager [mkCode "23456" 0 500 retiring 0 None] (λ _, 0) 0)
           0%nat (mkCode "23456" 0 500 retiring 0 None)).
  - vm_compute. reflexivity.
  - reflexivity.
  - simpl. lia.
Defined.

(** C7, as stated, fails: a rotation at time 0 of the initial code set made
    at time 0 turns the record with code 98765 to [retiring]; it expires
    after time 0, and [validateCode] refuses it. *)
Lemma retiring_not_validated :
  let m := rotateActiveCodes 0 (resetCodes 0 (mkManager [] (λ _, 0) 0)) in
  let c := mkCode "98765" (-2400000) 1200000 retiring 0 None in
  preGeneratedCodes m !! 7%nat = Some c ∧
  status c = retiring ∧
  expires c > 0 ∧
  validateCode (code c) 0 m = Invalid Inactive.
Proof.
  cbv zeta. split_and!.
  - vm_compute. reflexivity.
  - reflexivity.
  - simpl. lia.
  - vm_compute. reflexivity.
Qed.

(** ** Selection *)

(** C10, amended.  The object [getNextCode] returns sits at an index [i] of
    the pool afterwards.  Either it is a record of [getActiveCodes],
    [active] before the call and used once more by it, or it is an
    [emergency] record the call appended, with the code [generateUniqueCode]
    drew: a code no record held, unless all [maxAttempts] draws were held.
    An [emergency] record that was in the pool is not in [getActiveCodes],
    is not the object returned and is left as it was; if it has not expired
    and [find] reaches it, [validateCode] accepts it. *)
Theorem getNextCode_spares_emergency (now : Z) (m m' : CodeManager)
    (c : CodeRecord) :
  getNextCode now m = Some (c, m') →
  ∃ i : nat, preGeneratedCodes m' !! i = Some c ∧
    ((∃ c0, preGeneratedCodes m !! i = Some c0 ∧
        c0 ∈ getActiveCodes now m ∧ status c0 = active ∧
        c = use_once c0 ∧
        preGeneratedCodes m' = alter use_once i (preGeneratedCodes m)) ∨
     (i = length (preGeneratedCodes m) ∧
        status c = emergency ∧
        code c = (generateUniqueCode m).1 ∧
        preGeneratedCodes m' = preGeneratedCodes m ++ [c] ∧
        (holds_code (preGeneratedCodes m) (code c) = false ∨
         ∀ j : nat, (j < maxAttempts)%nat →
           holds_code (preGeneratedCodes m)
             (random_code (entropy m) (draws m + j)) = true))) ∧
    (∀ j e, preGeneratedCodes m !! j = Some e → status e = emergency →
       (e ∉ getActiveCodes now m) ∧ j ≠ i ∧
       preGeneratedCodes m' !! j = Some e) ∧
    (∀ j e, find_code (code e) m = Some (j, e) → status e = emergency →
       now ≤ expires e →
       validateCode (code e) now m = Valid e (expires e - now) (uses e)).
Proof.
  intros Hnext.
  destruct (getNextCode_cases now m c m' Hnext) as (i & Hi & Hcases).
  exists i. split; [done|]. split_and!.
  - destruct Hcases as [(c0 & H0 & Hin & [_ Hact] & -> & Hp)|Hnew].
    + left. by exists c0.
    + right. destruct Hnew as (-> & _ & Hgen & Hp).
      pose proof (generateEmergencyCode_spec now m) as (Hs & _ & Hc & _).
      rewrite <- Hgen in Hs, Hc. simpl in Hs, Hc.
      split_and!; try done. rewrite Hc. apply generateUniqueCode_fresh.
  - intros j e Hj Hst.
    assert (e ∉ getActiveCodes now m) as Hout.
    { rewrite elem_of_getActiveCodes. intros [_ [_ Hact]]. congruence. }
    split; [done|].
    destruct Hcases as [(c0 & H0 & Hin & [_ Hact] & -> & Hp)|Hnew].
    + assert (j ≠ i) by (intros ->; congruence).
      split; [done|]. rewrite Hp. by rewrite list_lookup_alter_ne.
    + destruct Hnew as (-> & _ & _ & Hp).
      pose proof (lookup_lt_Some _ _ _ Hj).
      split; [lia|]. rewrite Hp. by rewrite lookup_app_l.
  - intros j e Hfind Hst Hexp.
    rewrite (validateCode_found _ now m j e Hfind).
    rewrite decide_False by lia. rewrite decide_False by congruence. done.
Qed.

Lemma getNextCode_spares_emergency_witness :
  let e := mkCode "10000" 0 3600000 emergency 1 None in
  let a := mkCode "23456" 0 3600000 active 2 None in
  let m := mkManager [e; a] (λ _, 0) 1 in
  ∃ i : nat,
    preGeneratedCodes (with_codes m [e; use_once a]) !! i = Some (use_once a) ∧
    preGeneratedCodes m !! 0%nat = Some e ∧ 0%nat ≠ i.
Proof.
  intros e a m.
  destruct (getNextCode_spares_emergency 0 m (with_codes m [e; use_once a])
              (use_once a)) as (i & Hi & _ & Hold & _).
  - vm_compute. reflexivity.
  - exists i. split; [exact Hi|]. split; [reflexivity|].
    destruct (Hold 0%nat e) as (_ & Hne & _); [reflexivity|reflexivity|].
    exact Hne.
Defined.

(** C10, as stated, fails: the code of the emergency record made need not
    be fresh.  With a pool that holds an [emergency] record of code 10007
    and an oracle that draws 7 every time, all hundred attempts are held and
    [getNextCode] appends an [emergency] record with the code 10007 again;
    [validateCode] answers for that code with the record that was there. *)
Lemma emergency_code_not_fresh :
  let e := mkCode "10007" 0 3600000 emergency 1 None in
  let e' := mkCode "10007" 100 3600100 emergency 1 None in
  let m := mkManager [e] (λ _, 7) 0 in
  let m' := mkManager [e; e'] (λ _, 7) 100 in
  getNextCode 100 m = Some (e', m') ∧
  holds_code (preGeneratedCodes m) (code e') = true ∧
  validateCode (code e') 100 m' = Valid e 3599900 1.
Proof.
  cbv zeta. split_and!; vm_compute; reflexivity.
Qed.

(** ** Expiry *)

(** A record was not used in the last five minutes: [lastUsed] is absent,
    is [0], or lies 300000 ms or more before [now]. *)
Lemma not_used_recently now c :
  ¬ used_recently now c ↔
  match lastUsed c with
  | Some t => t = 0 ∨ 300000 ≤ now - t
  | None => True
  end.
Proof.
  unfold used_recently. destruct (lastUsed c) as [t|]; [|tauto].
  destruct (decide (t = 0)); lia.
Qed.

(** C9, amended.  [cleanExpiredCodes] removes a record if and only if its
    [expires] is at or before [now] and it was not used in the last five
    minutes before [now]; a record with [expires] after [now] is kept; the
    records kept stay in their order, and the number returned is the number
    of records removed. *)
Theorem cleanExpiredCodes_removes (now : Z) (m : CodeManager) :
  let pool := preGeneratedCodes m in
  let pool' := preGeneratedCodes (cleanExpiredCodes now m).2 in
  let stale c := match lastUsed c with
                 | Some t => t = 0 ∨ 300000 ≤ now - t
                 | None => True
                 end in
  (∀ c, c ∈ pool → (c ∉ pool' ↔ expires c ≤ now ∧ stale c)) ∧
  (∀ c, c ∈ pool → expires c > now → c ∈ pool') ∧
  pool' `sublist_of` pool ∧
  (length pool' + (cleanExpiredCodes now m).1)%nat = length pool.
Proof.
  intros pool pool' stale. subst pool'. unfold cleanExpiredCodes.
  cbn [fst snd with_codes preGeneratedCodes]. fold pool. split_and!.
  - intros c Hc. rewrite list_elem_of_filter. unfold kept_at, stale.
    rewrite <- not_used_recently.
    destruct (decide (used_recently now c)); split.
    + intros Hout. destruct Hout. split; [by right|done].
    + tauto.
    + intros Hout. split; [|done].
      destruct (decide (expires c ≤ now)); [done|].
      destruct Hout. split; [left; lia|done].
    + intros [Hexp _] [[Hlater|Hused] _]; [lia|done].
  - intros c Hc Hexp. apply list_elem_of_filter. split; [by left|done].
  - apply sublist_filter.
  - pose proof (length_filter (kept_at now) pool). lia.
Qed.

(** C9, as stated, fails: the record with code 98765 of the initial code set
    made at time 0 expires at 1200000; used at 1700000, it is kept by the
    cleaning at 1800000, ten minutes past its [expires] and so outside the
    five minutes of grace of the specification. *)
Lemma long_expired_record_kept :
  let m := markCodeAsUsed "98765" 1700000
             (resetCodes 0 (mkManager [] (λ _, 0) 0)) in
  let c := mkCode "98765" (-2400000) 1200000 active 1 (Some 1700000) in
  preGeneratedCodes m !! 7%nat = Some c ∧
  expires c ≤ 1800000 ∧
  ¬ in_grace_window 1800000 c ∧
  (cleanExpiredCodes 1800000 m).1 = 2%nat ∧
  preGeneratedCodes (cleanExpiredCodes 1800000 m).2 !! 5%nat = Some c.
Proof.
  cbv zeta. split_and!.
  - vm_compute. reflexivity.
  - simpl. lia.
  - unfold in_grace_window. simpl. lia.
  - vm_compute. reflexivity.
  - vm_compute. reflexivity.
Qed.

Lemma filter_all {A} (P : A → Prop) `{∀ x, Decision (P x)} (l : list A) :
  Forall P l → filter P l = l.
Proof.
  induction 1 as [|x l Hx Hl IH]; [done|].
  rewrite filter_cons, decide_True by done. by rewrite IH.
Qed.

Lemma filter_none {A} (P : A → Prop) `{∀ x, Decision (P x)} (l : list A) :
  Forall (λ x, ¬ P x) l → filter P l = [].
Proof.
  induction 1 as [|x l Hx Hl IH]; [done|].
  by rewrite filter_cons, decide_False.
Qed.

(** ** Backup *)

(** Parsing what was written for a record gives the record back. *)
Lemma code_of_json_of_code c : code_of_json (json_of_code c) = Some c.
Proof. destruct c as [s g e [] u [t|]]; reflexivity. Qed.

Lemma member_codes_exportCodes now m :
  member "codes" (exportCodes now m)
  = Some (JArr (json_of_code <$> preGeneratedCodes m)).
Proof. reflexivity. Qed.

(** C8.  Importing into a manager, at any later reading of the clock, what
    [exportCodes] wrote of a pool succeeds, reports every record as imported
    and leaves in that manager, whatever it held, exactly the pool that one
    [cleanExpiredCodes] pass leaves of the pool exported: the same records,
    so the same codes, statuses and uses, in the same order. *)
Theorem importCodes_exportCodes (exported imported : Z)
    (m target : CodeManager) :
  let pool := preGeneratedCodes m in
  let cleaned := preGeneratedCodes (cleanExpiredCodes imported m).2 in
  ∃ m', importCodes (Some (exportCodes exported m)) imported target
        = Some (Imported (length pool), m') ∧
    preGeneratedCodes m' = cleaned ∧
    code <$> preGeneratedCodes m' = code <$> cleaned ∧
    status <$> preGeneratedCodes m' = status <$> cleaned ∧
    uses <$> preGeneratedCodes m' = uses <$> cleaned ∧
    (Forall (kept_at imported) pool → preGeneratedCodes m' = pool) ∧
    importCodes (Some (exportCodes exported m)) imported m
    = Some (Imported (length pool), (cleanExpiredCodes imported m).2).
Proof.
  intros pool cleaned. subst cleaned.
  assert (∀ t, importCodes (Some (exportCodes exported m)) imported t
               = Some (Imported (length pool),
                       (cleanExpiredCodes imported (with_codes t pool)).2))
    as Himport.
  { intros t. unfold importCodes.
    change (match exportCodes exported m with JNull => ?a | _ => ?b end)
      with b.
    rewrite member_codes_exportCodes.
    rewrite (mapM_fmap_Some code_of_json json_of_code)
      by apply code_of_json_of_code.
    simpl. by rewrite length_fmap. }
  exists (cleanExpiredCodes imported (with_codes target pool)).2.
  split_and!; try done.
  intros Hall. unfold cleanExpiredCodes.
  cbn [snd with_codes preGeneratedCodes]. by apply filter_all.
Qed.

(** ** Rotation *)

(** The [forEach] takes from the active codes those that expire within
    thirty minutes, and adds none. *)
Lemma length_filter_retire now (l : list CodeRecord) :
  (length (filter (is_active_at now) (retire now <$> l))
   + length (filter (retires_at now) l)
   = length (filter (is_active_at now) l))%nat.
Proof.
  induction l as [|c l IH]; [done|].
  rewrite fmap_cons, !filter_cons.
  destruct (decide (retires_at now c)) as [[Hact Hsoon]|Hstay].
  - rewrite (decide_True _ _ Hact).
    rewrite decide_False; [simpl; lia|].
    unfold retire. destruct Hact as [_ Hst].
    rewrite decide_True by done. intros [_ Hst']. done.
  - destruct (decide (is_active_at now c)) as [Hact|Hnot].
    + assert (retire now c = c) as ->.
      { unfold retire. rewrite decide_False; [done|].
        intros [Hsoon _]. apply Hstay. by split. }
      rewrite decide_True by done. simpl. lia.
    + rewrite decide_False; [simpl; lia|].
      unfold retire. case_decide as Hsoon; [intros [_ Hst]; done|done].
Qed.

(** Without trimming, the pool after [generateNewCodes] is the pool before
    followed by the new records. *)
Lemma generateNewCodes_fits n now m :
  (length (preGeneratedCodes m) + n ≤ maxCodes)%nat →
  preGeneratedCodes (generateNewCodes n now m).2
  = preGeneratedCodes m ++ (new_codes n 0 now m).1.
Proof.
  intros Hfit. unfold generateNewCodes.
  pose proof (new_codes_spec n 0 now m) as (Hlen & Hp & _ & _).
  destruct (new_codes n 0 now m) as [newCodes m1]. simpl in *.
  unfold trimCodeList. cbn [with_codes preGeneratedCodes].
  rewrite decide_False; [by rewrite Hp|].
  rewrite length_app, Hp, Hlen. lia.
Qed.

(** After [maintainCodePool], when nothing had to be trimmed, the pool holds
    [minActiveCodes] records or more that are [active] and not expired. *)
Lemma maintainCodePool_minimum now m :
  (length (preGeneratedCodes m)
   + (minActiveCodes - length (getActiveCodes now m)) ≤ maxCodes)%nat →
  (minActiveCodes
   ≤ length (filter (is_active_at now)
               (preGeneratedCodes (maintainCodePool now m))))%nat.
Proof.
  intros Hfit. unfold maintainCodePool. case_decide as Hfew.
  - rewrite generateNewCodes_fits by done.
    pose proof (new_codes_spec (minActiveCodes - length (getActiveCodes now m))
                  0 now m) as (Hlen & _ & _ & Hall).
    rewrite filter_app, length_app, <- length_getActiveCodes.
    rewrite (filter_all (is_active_at now) (new_codes _ _ _ _).1).
    + rewrite Hlen. lia.
    + eapply Forall_impl; [exact Hall|]. simpl. intros c (Hst & _ & Hexp).
      split; [|done]. unfold rotationInterval in Hexp. lia.
  - rewrite <- length_getActiveCodes. lia.
Qed.

(** The first two steps of a rotation are a cleaning and the maintenance of
    the pool. *)
Lemma rotateActiveCodes_maintain now m :
  rotateActiveCodes now m =
  let m2 := maintainCodePool now (cleanExpiredCodes now m).2 in
  with_codes m2 (retire now <$> preGeneratedCodes m2).
Proof. reflexivity. Qed.

(** The proviso on [maxCodes] is needed: of a full pool of [emergency]
    records that expire later than the new codes, the trimming keeps the
    old records and drops every new code. *)
Example rotation_trims_new_codes :
  let full := replicate 20 (mkCode "55555" 0 10000000 emergency 1 None) in
  let m' := rotateActiveCodes 0 (mkManager full (λ k, Z.of_nat k) 0) in
  draws m' = 5%nat ∧ preGeneratedCodes m' = full.
Proof. cbv zeta. split; vm_compute; reflexivity. Qed.

(** The active codes after [maintainCodePool], when nothing had to be
    trimmed: as many as before or [minActiveCodes], whichever is more, and of
    those that expire within thirty minutes none is new. *)
Lemma maintainCodePool_active now m :
  (length (preGeneratedCodes m)
   + (minActiveCodes - length (getActiveCodes now m)) ≤ maxCodes)%nat →
  length (filter (is_active_at now)
            (preGeneratedCodes (maintainCodePool now m)))
  = (minActiveCodes `max` length (getActiveCodes now m))%nat ∧
  filter (retires_at now) (preGeneratedCodes (maintainCodePool now m))
  = filter (retires_at now) (preGeneratedCodes m).
Proof.
  intros Hfit. unfold maintainCodePool. case_decide as Hfew.
  - rewrite generateNewCodes_fits by done.
    pose proof (new_codes_spec (minActiveCodes - length (getActiveCodes now m))
                  0 now m) as (Hlen & _ & _ & Hall).
    rewrite !filter_app, length_app, <- length_getActiveCodes.
    rewrite (filter_all (is_active_at now) (new_codes _ _ _ _).1).
    + rewrite (filter_none (retires_at now) (new_codes _ _ _ _).1).
      * rewrite Hlen, app_nil_r. split; [lia|done].
      * eapply Forall_impl; [exact Hall|]. simpl.
        intros c (_ & _ & Hexp) [_ Hsoon].
        unfold rotationInterval in Hexp. lia.
    + eapply Forall_impl; [exact Hall|]. simpl. intros c (Hst & _ & Hexp).
      split; [|done]. unfold rotationInterval in Hexp. lia.
  - rewrite <- length_getActiveCodes. split; [lia|done].
Qed.

(** C1, amended.  Provided the records left by the cleaning and the records
    to generate fit in [maxCodes], and whatever the oracle draws: after
    [rotateActiveCodes] the records that are [active] and expire after
    [now], together with the active codes the rotation has turned to
    [retiring], those that expired less than thirty minutes after [now],
    number [minActiveCodes] or, if more were active after the cleaning, as
    many as those.  So the active codes number [minActiveCodes] or more
    less the codes retired, and [minActiveCodes] or more when no active code
    expired within thirty minutes. *)
Theorem rotateActiveCodes_keeps_minimum (now : Z) (m : CodeManager) :
  let m1 := (cleanExpiredCodes now m).2 in
  let retired := filter (retires_at now) (preGeneratedCodes m1) in
  let active' :=
    filter (is_active_at now) (preGeneratedCodes (rotateActiveCodes now m)) in
  (length (preGeneratedCodes m1)
   + (minActiveCodes - length (getActiveCodes now m1)) ≤ maxCodes)%nat →
  (length active' + length retired
   = minActiveCodes `max` length (getActiveCodes now m1))%nat ∧
  (minActiveCodes ≤ length active' + length retired)%nat ∧
  (retired = [] → (minActiveCodes ≤ length active')%nat).
Proof.
  intros m1 retired active' Hfit. subst retired active'.
  rewrite rotateActiveCodes_maintain. fold m1.
  cbn [with_codes preGeneratedCodes].
  destruct (maintainCodePool_active now m1 Hfit) as [Hactive Hretired].
  pose proof (length_filter_retire now
                (preGeneratedCodes (maintainCodePool now m1))) as Hexact.
  rewrite Hretired in Hexact.
  split_and!; [lia|lia|].
  intros Hnone. rewrite Hnone in Hexact. simpl in Hexact. lia.
Qed.

Lemma rotateActiveCodes_keeps_minimum_witness :
  let m := resetCodes 0 (mkManager [] (λ k, Z.of_nat k) 0) in
  let m1 := (cleanExpiredCodes 600000 m).2 in
  let retired := filter (retires_at 600000) (preGeneratedCodes m1) in
  let active' :=
    filter (is_active_at 600000)
      (preGeneratedCodes (rotateActiveCodes 600000 m)) in
  (length active' + length retired
   = minActiveCodes `max` length (getActiveCodes 600000 m1))%nat ∧
  (minActiveCodes ≤ length active' + length retired)%nat ∧
  (retired = [] → (minActiveCodes ≤ length active')%nat).
Proof.
  intros m.
  apply (rotateActiveCodes_keeps_minimum 600000 m).
  vm_compute. lia.
Defined.

(** C1, as stated, fails: a rotation ten minutes after the initial code set
    was made draws no code, so no attempt is exhausted, and turns four of
    the eight records to [retiring]; four records are left that are
    [active] and not expired, fewer than [minActiveCodes]. *)
Lemma rotation_leaves_four_active :
  let m := resetCodes 0 (mkManager [] (λ _, 0) 0) in
  let m' := rotateActiveCodes 600000 m in
  draws m' = draws m ∧
  length (filter (is_active_at 600000) (preGeneratedCodes m')) = 4%nat ∧
  ¬ (minActiveCodes
     ≤ length (filter (is_active_at 600000) (preGeneratedCodes m')))%nat.
Proof.
  cbv zeta.
  assert (length (filter (is_active_at 600000)
                    (preGeneratedCodes
                       (rotateActiveCodes 600000
                          (resetCodes 0 (mkManager [] (λ _, 0) 0))))) = 4%nat)
    as Hfour by (vm_compute; reflexivity).
  split_and!.
  - vm_compute. reflexivity.
  - exact Hfour.
  - rewrite Hfour. unfold minActiveCodes. lia.
Qed.

(** * Further properties of the class *)

(** ** The head of a sorted array *)

Section sort_head.
Context {A : Type} (cmp : A → A → Z).
Context (total : ∀ a b, cmp a b ≤ 0 ∨ cmp b a ≤ 0).
Context (trans : ∀ a b c, cmp a b ≤ 0 → cmp b c ≤ 0 → cmp a c ≤ 0).

(** The first element after the sort is the first of the least elements of
    the array: what stood before it compares greater, and it does not
    compare greater than what stood after it. *)
Lemma sort_by_head l x :
  sort_by cmp l !! 0%nat = Some x →
  ∃ l1 l2, l = l1 ++ x :: l2 ∧
    (∀ y, y ∈ l1 → 0 < cmp y x) ∧ (∀ y, y ∈ l2 → cmp x y ≤ 0).
Proof.
  revert x. induction l as [|a l IH]; intros x; simpl; [done|].
  destruct (sort_by cmp l) as [|h t] eqn:Hsort.
  - apply sort_by_nil_inv in Hsort as ->. simpl. intros [= <-].
    exists [], []. split_and!; [done|..]; intros y Hy; by apply elem_of_nil in Hy.
  - destruct (IH h eq_refl) as (l1 & l2 & -> & Hbefore & Hafter).
    simpl. case_decide as Hah; simpl; intros [= <-].
    + exists [], (l1 ++ h :: l2). split_and!; [done|..].
      * intros y Hy. by apply elem_of_nil in Hy.
      * intros y [Hy|[->|Hy]%elem_of_cons]%elem_of_app.
        -- apply (trans _ h); [done|].
           destruct (total h y) as [?|?]; [done|].
           specialize (Hbefore y Hy). lia.
        -- done.
        -- apply (trans _ h); [done|]. by apply Hafter.
    + exists (a :: l1), l2. split_and!; [done| |done].
      intros y [->|Hy]%elem_of_cons; [lia|by apply Hbefore].
Qed.
End sort_head.

(** ** Cleaning *)

(** X1.  A second [cleanExpiredCodes] at the same reading of the clock
    removes nothing: it returns 0 and leaves the pool of the first. *)
Theorem cleanExpiredCodes_idempotent (now : Z) (m : CodeManager) :
  cleanExpiredCodes now (cleanExpiredCodes now m).2
  = (0%nat, (cleanExpiredCodes now m).2).
Proof.
  unfold cleanExpiredCodes. cbn [snd with_codes preGeneratedCodes entropy draws].
  rewrite (filter_all (kept_at now) (filter (kept_at now) _)).
  - by rewrite Nat.sub_diag.
  - apply Forall_forall. by intros c [? _]%list_elem_of_filter.
Qed.

(** ** The active codes *)

(** X2.  [getActiveCodes] returns, each as often as the pool holds it, the
    records that expire after [now] and are [active], and returns them
    newest first. *)
Theorem getActiveCodes_newest_first (now : Z) (m : CodeManager) :
  getActiveCodes now m
    ≡ₚ filter (λ c, expires c > now ∧ status c = active) (preGeneratedCodes m) ∧
  StronglySorted (λ a b, generated b ≤ generated a) (getActiveCodes now m).
Proof.
  split; [apply getActiveCodes_Permutation|].
  unfold getActiveCodes, activeRefs.
  eapply (StronglySorted_fmap snd
            (λ a b : nat * CodeRecord, generated b.2 - generated a.2 ≤ 0)).
  - intros a b. simpl. lia.
  - apply (sort_by_sorted (λ a b : nat * CodeRecord,
                             generated b.2 - generated a.2)).
    + intros a b; simpl; lia.
    + intros a b c; simpl; lia.
Qed.

(** X3.  When there are active codes, [getNextCode] hands out one that no
    active code has fewer uses than, and of the active codes with as few
    uses none was generated later; the record returned counts the use. *)
Theorem getNextCode_least_used (now : Z) (m m' : CodeManager)
    (c : CodeRecord) :
  getNextCode now m = Some (c, m') →
  getActiveCodes now m ≠ [] →
  ∃ c0, c0 ∈ getActiveCodes now m ∧ c = use_once c0 ∧
    ∀ a, a ∈ getActiveCodes now m →
      uses c0 ≤ uses a ∧ (uses a = uses c0 → generated a ≤ generated c0).
Proof.
  intros Hnext Hne. unfold getNextCode in Hnext.
  rewrite decide_False in Hnext; last first.
  { rewrite length_activeRefs. by intros ?%length_zero_iff_nil. }
  destruct (sort_by _ (activeRefs now m) !! 0%nat) as [[i c0]|] eqn:Hhd;
    [|done].
  injection Hnext as <- <-.
  apply (sort_by_head (λ a b : nat * CodeRecord, uses a.2 - uses b.2)) in Hhd
    as (l1 & l2 & Hsplit & Hbefore & Hafter).
  2: { intros a b; simpl; lia. }
  2: { intros a b d; simpl; lia. }
  assert (StronglySorted
            (λ a b : nat * CodeRecord, generated b.2 - generated a.2 ≤ 0)
            (l1 ++ (i, c0) :: l2)) as Hsorted.
  { rewrite <- Hsplit.
    apply (sort_by_sorted (λ a b : nat * CodeRecord,
                             generated b.2 - generated a.2)).
    - intros a b; simpl; lia.
    - intros a b d; simpl; lia. }
  apply StronglySorted_app_1_r, StronglySorted_cons in Hsorted
    as [Hlater _].
  exists c0. split_and!; [|done|].
  - unfold getActiveCodes. rewrite Hsplit.
    apply list_elem_of_fmap. exists (i, c0). split; [done|].
    apply elem_of_app. right. by left.
  - intros a Ha. unfold getActiveCodes in Ha. rewrite Hsplit in Ha.
    apply list_elem_of_fmap in Ha as ([j a'] & -> & Ha). simpl.
    apply elem_of_app in Ha as [Ha|[Ha|Ha]%elem_of_cons].
    + specialize (Hbefore _ Ha). simpl in Hbefore. lia.
    + injection Ha as -> ->. lia.
    + specialize (Hafter _ Ha). simpl in Hafter.
      rewrite Forall_forall in Hlater. specialize (Hlater _ Ha).
      simpl in Hlater. lia.
Qed.

Lemma getNextCode_least_used_witness :
  let a := mkCode "23456" 0 3600000 active 2 None in
  let b := mkCode "34567" 60000 3660000 active 1 None in
  let m := mkManager [a; b] (λ _, 0) 0 in
  ∃ c0, c0 ∈ getActiveCodes 100 m ∧ use_once b = use_once c0 ∧
    ∀ x, x ∈ getActiveCodes 100 m →
      uses c0 ≤ uses x ∧ (uses x = uses c0 → generated x ≤ generated c0).
Proof.
  intros a b m.
  apply (getNextCode_least_used 100 m (with_codes m [a; use_once b])
           (use_once b)).
  - vm_compute. reflexivity.
  - vm_compute. discriminate.
Defined.

(** ** Looking a code up *)

Lemma find_code_Some s m i c :
  find_code s m = Some (i, c) ↔
  preGeneratedCodes m !! i = Some c ∧ code c = s ∧
  ∀ j y, preGeneratedCodes m !! j = Some y → (j < i)%nat → code y ≠ s.
Proof. unfold find_code. by rewrite list_find_Some. Qed.

Lemma find_code_None s m :
  find_code s m = None ↔ holds_code (preGeneratedCodes m) s = false.
Proof.
  unfold find_code, holds_code.
  rewrite list_find_None, bool_decide_eq_false, <- Forall_Exists_neg. done.
Qed.

(** In a pool without a repeated code, [find] reaches every record by its
    code. *)
Lemma find_code_unique m i c :
  NoDup (code <$> preGeneratedCodes m) →
  preGeneratedCodes m !! i = Some c →
  find_code (code c) m = Some (i, c).
Proof.
  intros Hnodup Hi. apply find_code_Some. split_and!; [done|done|].
  intros j y Hj Hlt Heq.
  assert (i = j); [|lia].
  apply (NoDup_lookup _ i j (code c) Hnodup).
  - by rewrite list_lookup_fmap, Hi.
  - by rewrite list_lookup_fmap, Hj, <- Heq.
Qed.

(** Changing records without changing their codes does not change what
    [find] reaches. *)
Lemma find_code_alter f i s m :
  (∀ c, code (f c) = code c) →
  find_code s (with_codes m (alter f i (preGeneratedCodes m)))
  = (λ r : nat * CodeRecord, (r.1, if decide (r.1 = i) then f r.2 else r.2))
      <$> find_code s m.
Proof.
  intros Hf. destruct (find_code s m) as [[j c]|] eqn:Hfind; simpl.
  - apply find_code_Some in Hfind as (Hj & Hc & Hfirst).
    apply find_code_Some. cbn [with_codes preGeneratedCodes].
    split_and!.
    + rewrite list_lookup_alter.
      repeat case_decide; subst; try done; by rewrite Hj.
    + case_decide; [by rewrite Hf|done].
    + intros k y Hk Hlt. rewrite list_lookup_alter in Hk.
      case_decide; subst.
      * destruct (preGeneratedCodes m !! k) as [y0|] eqn:Hk0; [|done].
        injection Hk as <-. rewrite Hf. by eapply Hfirst.
      * by eapply Hfirst.
  - apply find_code_None in Hfind. apply find_code_None.
    cbn [with_codes preGeneratedCodes].
    apply not_true_is_false. rewrite holds_code_true.
    intros (c & Hc & Heq).
    apply list_elem_of_lookup in Hc as [k Hk].
    rewrite list_lookup_alter in Hk.
    assert (∃ c0, preGeneratedCodes m !! k = Some c0 ∧ code c0 = s)
      as (c0 & Hk0 & Hc0).
    { case_decide; subst.
      - destruct (preGeneratedCodes m !! k) as [y0|]; [|done].
        injection Hk as <-. exists y0. by rewrite <- Hf.
      - by exists c. }
    apply not_true_iff_false in Hfind. apply Hfind, holds_code_true.
    exists c0. split; [|done]. by eapply list_elem_of_lookup_2.
Qed.

(** Removing records does not change what [find] reaches, if the record it
    reaches stays. *)
Lemma list_find_filter {A} (P Q : A → Prop) `{∀ x, Decision (P x)}
    `{∀ x, Decision (Q x)} (l : list A) i x :
  list_find P l = Some (i, x) → Q x →
  ∃ j, list_find P (filter Q l) = Some (j, x).
Proof.
  revert i. induction l as [|y l IH]; intros i; [done|].
  intros Hfind Hx. rewrite filter_cons. cbn in Hfind.
  destruct (decide (P y)) as [Hy|Hy].
  - injection Hfind as <- <-. rewrite decide_True by done.
    exists 0%nat. cbn. by rewrite decide_True.
  - destruct (list_find P l) as [[i' x']|] eqn:Hl; [|done].
    injection Hfind as <- <-.
    destruct (IH i' eq_refl Hx) as [j Hj].
    destruct (decide (Q y)).
    + exists (S j). cbn. rewrite decide_False by done. by rewrite Hj.
    + by exists j.
Qed.

(** ** Handing codes out *)

Lemma generateEmergencyCode_record now m :
  (generateEmergencyCode now m).1
  = mkCode (generateUniqueCode m).1 now (now + 3600000) emergency 1 None.
Proof.
  unfold generateEmergencyCode. by destruct (generateUniqueCode m) as [s m1].
Qed.

(** X4.  The code [getNextCode] hands out validates at the same reading of
    the clock, with the record returned and its count of uses, provided no
    code is repeated in the pool after the call. *)
Theorem getNextCode_validates (now : Z) (m m' : CodeManager) (c : CodeRecord) :
  getNextCode now m = Some (c, m') →
  NoDup (code <$> preGeneratedCodes m') →
  validateCode (code c) now m' = Valid c (expires c - now) (uses c).
Proof.
  intros Hnext Hnodup.
  destruct (getNextCode_cases now m c m' Hnext) as (i & Hi & Hcases).
  rewrite (validateCode_found _ now m' i c (find_code_unique m' i c Hnodup Hi)).
  assert (now < expires c ∧ status c ≠ retiring) as [Hexp Hst].
  { destruct Hcases as [(c0 & _ & _ & [Hexp Hact] & -> & _)|Hnew].
    - simpl. split; [lia|congruence].
    - destruct Hnew as (_ & _ & Hgen & _).
      pose proof (generateEmergencyCode_record now m) as Hrec.
      rewrite <- Hgen in Hrec. simpl in Hrec. subst c. simpl. split; [lia|done]. }
  rewrite decide_False by lia. by rewrite decide_False.
Qed.

Lemma getNextCode_validates_witness :
  let a := mkCode "23456" 0 3600000 active 2 None in
  let m := mkManager [a] (λ _, 0) 0 in
  validateCode "23456" 100 (with_codes m [use_once a])
  = Valid (use_once a) 3599900 3.
Proof.
  intros a m.
  apply (getNextCode_validates 100 m (with_codes m [use_once a]) (use_once a)).
  - vm_compute. reflexivity.
  - vm_compute. apply NoDup_singleton.
Defined.

(** X5.  Without an active code [getNextCode] appends an [emergency] record
    whatever the size of the pool, which it does not trim, and the pool has
    no active code afterwards either: the next call appends again. *)
Theorem getNextCode_does_not_replenish (now : Z) (m : CodeManager) :
  getActiveCodes now m = [] →
  ∃ c m', getNextCode now m = Some (c, m') ∧
    status c = emergency ∧
    preGeneratedCodes m' = preGeneratedCodes m ++ [c] ∧
    getActiveCodes now m' = [].
Proof.
  intros Hnil. rewrite getNextCode_emergency by done.
  pose proof (generateEmergencyCode_spec now m) as (Hst & _ & _ & Hp).
  destruct (generateEmergencyCode now m) as [c m']. simpl in *.
  exists c, m'. split_and!; [done|done|done|].
  apply length_zero_iff_nil.
  rewrite length_getActiveCodes, Hp, filter_app, length_app.
  rewrite <- length_getActiveCodes, Hnil.
  rewrite filter_cons, decide_False; [done|].
  intros [_ Hact]. congruence.
Qed.

Lemma getNextCode_does_not_replenish_witness :
  let m := mkManager (replicate 20 (mkCode "55555" 0 10000000 emergency 1 None))
             (λ k, Z.of_nat k) 0 in
  ∃ c m', getNextCode 0 m = Some (c, m') ∧
    status c = emergency ∧
    preGeneratedCodes m' = preGeneratedCodes m ++ [c] ∧
    getActiveCodes 0 m' = [].
Proof.
  intros m. apply (getNextCode_does_not_replenish 0 m).
  vm_compute. reflexivity.
Defined.

(** ** Counting uses *)

Lemma sum_uses_from a l :
  foldl (λ sum c, sum + uses c) a l = a + sum_uses l.
Proof.
  unfold sum_uses. revert a. induction l as [|c l IH]; intros a; simpl.
  - lia.
  - rewrite (IH (a + uses c)), (IH (0 + uses c)). lia.
Qed.

Lemma sum_uses_cons c l : sum_uses (c :: l) = uses c + sum_uses l.
Proof. unfold sum_uses at 1. simpl. rewrite sum_uses_from. lia. Qed.

Lemma sum_uses_app l1 l2 : sum_uses (l1 ++ l2) = sum_uses l1 + sum_uses l2.
Proof.
  induction l1 as [|c l1 IH]; simpl.
  - unfold sum_uses at 2. simpl. lia.
  - rewrite !sum_uses_cons, IH. lia.
Qed.

Lemma sum_uses_alter f i l c d :
  l !! i = Some c → uses (f c) = uses c + d →
  sum_uses (alter f i l) = sum_uses l + d.
Proof.
  revert i. induction l as [|y l IH]; intros i Hi Hf; [done|].
  destruct i as [|i]; simpl in Hi.
  - injection Hi as ->. change (alter f 0%nat (c :: l)) with (f c :: l).
    rewrite !sum_uses_cons. lia.
  - change (alter f (S i) (y :: l)) with (y :: alter f i l).
    rewrite !sum_uses_cons, (IH i Hi Hf). lia.
Qed.

(** X6.  Every [getNextCode] raises the total of uses that [getCodeStats]
    reports by exactly one, whether it hands out an active code or makes an
    emergency code. *)
Theorem getNextCode_counts_one_use (now t : Z) (m m' : CodeManager)
    (c : CodeRecord) :
  getNextCode now m = Some (c, m') →
  totalUses (getCodeStats t m') = totalUses (getCodeStats t m) + 1.
Proof.
  intros Hnext. cbn [getCodeStats totalUses].
  destruct (getNextCode_cases now m c m' Hnext) as (i & _ & [Hsel|Hnew]).
  - destruct Hsel as (c0 & Hi & _ & _ & _ & ->).
    by apply (sum_uses_alter use_once i _ c0).
  - destruct Hnew as (_ & _ & Hgen & ->).
    pose proof (generateEmergencyCode_record now m) as Hrec.
    rewrite <- Hgen in Hrec. simpl in Hrec.
    rewrite sum_uses_app, sum_uses_cons, Hrec. simpl.
    unfold sum_uses. simpl. lia.
Qed.

Lemma getNextCode_counts_one_use_witness :
  let a := mkCode "23456" 0 3600000 active 2 None in
  let m := mkManager [a] (λ _, 0) 0 in
  totalUses (getCodeStats 500 (with_codes m [use_once a]))
  = totalUses (getCodeStats 500 m) + 1.
Proof.
  intros a m.
  apply (getNextCode_counts_one_use 100 500 m (with_codes m [use_once a])
           (use_once a)).
  vm_compute. reflexivity.
Defined.

(** ** Marking a code as used *)

Lemma markCodeAsUsed_found s t m i c :
  find_code s m = Some (i, c) →
  markCodeAsUsed s t m
  = with_codes m (alter (use_at t) i (preGeneratedCodes m)).
Proof. intros Hfind. unfold markCodeAsUsed. by rewrite Hfind. Qed.

Lemma markCodeAsUsed_unknown s t m :
  find_code s m = None → markCodeAsUsed s t m = m.
Proof. intros Hfind. unfold markCodeAsUsed. by rewrite Hfind. Qed.

(** X7.  [markCodeAsUsed] changes no code, expiry or status and no
    record other than the first with the code; the total of uses grows by
    one when the pool holds the code, and a code the pool does not hold
    changes nothing at all. *)
Theorem markCodeAsUsed_effect (s : string) (t stats_at : Z) (m : CodeManager) :
  let m' := markCodeAsUsed s t m in
  code <$> preGeneratedCodes m' = code <$> preGeneratedCodes m ∧
  expires <$> preGeneratedCodes m' = expires <$> preGeneratedCodes m ∧
  status <$> preGeneratedCodes m' = status <$> preGeneratedCodes m ∧
  totalUses (getCodeStats stats_at m')
  = totalUses (getCodeStats stats_at m)
    + (if holds_code (preGeneratedCodes m) s then 1 else 0) ∧
  (holds_code (preGeneratedCodes m) s = false → m' = m) ∧
  (∀ i c, find_code s m = Some (i, c) →
     preGeneratedCodes m' !! i = Some (use_at t c) ∧
     ∀ j, j ≠ i → preGeneratedCodes m' !! j = preGeneratedCodes m !! j).
Proof.
  intros m'. subst m'. cbn [getCodeStats totalUses].
  destruct (find_code s m) as [[i c]|] eqn:Hfind.
  - rewrite (markCodeAsUsed_found s t m i c Hfind).
    cbn [with_codes preGeneratedCodes].
    pose proof Hfind as (Hi & Hc & _)%find_code_Some.
    assert (holds_code (preGeneratedCodes m) s = true) as ->.
    { apply holds_code_true. exists c. split; [|done].
      by eapply list_elem_of_lookup_2. }
    assert (∀ {B} (f : CodeRecord → B), (∀ x, f (use_at t x) = f x) →
              f <$> alter (use_at t) i (preGeneratedCodes m)
              = f <$> preGeneratedCodes m) as Hsame.
    { intros B f Hf. rewrite (list_fmap_alter f (use_at t) id).
      - by apply list_alter_id.
      - apply Forall_forall. intros x _. apply Hf. }
    split_and!; [by apply Hsame|by apply Hsame|by apply Hsame| |done|].
    + by apply (sum_uses_alter (use_at t) i _ c).
    + intros i' c' [= <- <-]. split.
      * by rewrite list_lookup_alter_eq, Hi.
      * intros j Hj. by rewrite list_lookup_alter_ne.
  - rewrite (markCodeAsUsed_unknown s t m Hfind).
    apply find_code_None in Hfind. rewrite Hfind.
    split_and!; [done|done|done|lia|done|].
    intros i c Hsome. apply find_code_None in Hfind. congruence.
Qed.

(** X8.  A code used less than five minutes ago is kept by
    [cleanExpiredCodes], expired or not: after a [markCodeAsUsed] at a
    time [t] other than 0, the record marked is in the pool that a cleaning
    at [now] leaves whenever [now - t < 300000]. *)
Theorem used_code_survives_cleaning (s : string) (t now : Z)
    (m : CodeManager) (i : nat) (c : CodeRecord) :
  find_code s m = Some (i, c) →
  t ≠ 0 →
  now - t < 300000 →
  use_at t c ∈ preGeneratedCodes (cleanExpiredCodes now (markCodeAsUsed s t m)).2.
Proof.
  intros Hfind Ht Hrecent.
  rewrite (markCodeAsUsed_found s t m i c Hfind).
  apply find_code_Some in Hfind as (Hi & _ & _).
  unfold cleanExpiredCodes. cbn [snd with_codes preGeneratedCodes].
  apply list_elem_of_filter. split.
  - right. unfold used_recently. simpl. done.
  - apply list_elem_of_lookup. exists i.
    by rewrite list_lookup_alter_eq, Hi.
Qed.

Lemma used_code_survives_cleaning_witness :
  let c := mkCode "23456" 0 3600000 active 0 None in
  let m := mkManager [c] (λ _, 0) 0 in
  use_at 4000000 c
  ∈ preGeneratedCodes
      (cleanExpiredCodes 4200000 (markCodeAsUsed "23456" 4000000 m)).2.
Proof.
  intros c m.
  apply (used_code_survives_cleaning "23456" 4000000 4200000 m 0%nat c).
  - vm_compute. reflexivity.
  - lia.
  - lia.
Defined.

(** X9.  [markCodeAsUsed] does not change the verdict of [validateCode]:
    for the code marked, a failure stays the same failure and a success
    reports the same time left and one use more; for every other code the
    answer is the same. *)
Theorem markCodeAsUsed_keeps_verdict (s s' : string) (t now : Z)
    (m : CodeManager) :
  validateCode s now (markCodeAsUsed s t m)
  = match validateCode s now m with
    | Invalid reason => Invalid reason
    | Valid c timeLeft used => Valid (use_at t c) timeLeft (used + 1)
    end ∧
  (s' ≠ s →
   validateCode s' now (markCodeAsUsed s t m) = validateCode s' now m).
Proof.
  destruct (find_code s m) as [[i c]|] eqn:Hfind.
  - rewrite (markCodeAsUsed_found s t m i c Hfind).
    assert (∀ x, code (use_at t x) = code x) as Hcode by done.
    split.
    + unfold validateCode.
      rewrite (find_code_alter (use_at t) i s m Hcode), Hfind. simpl.
      destruct (decide (i = i)); [simpl|done].
      repeat destruct (decide _); done.
    + intros Hne. unfold validateCode.
      rewrite (find_code_alter (use_at t) i s' m Hcode).
      destruct (find_code s' m) as [[j c']|] eqn:Hfind'; [|done]. simpl.
      destruct (decide (j = i)) as [->|]; [|done].
      apply find_code_Some in Hfind as (Hi & Hc & _).
      apply find_code_Some in Hfind' as (Hi' & Hc' & _). congruence.
  - rewrite (markCodeAsUsed_unknown s t m Hfind). split; [|done].
    unfold validateCode. by rewrite Hfind.
Qed.

(** ** Cleaning and validation *)

(** X10.  [cleanExpiredCodes] does not change what [validateCode] answers
    for a code whose record expires after [now]: the record stays the first
    with its code. *)
Theorem cleaning_keeps_verdict (s : string) (now : Z) (m : CodeManager)
    (i : nat) (c : CodeRecord) :
  find_code s m = Some (i, c) →
  expires c > now →
  validateCode s now (cleanExpiredCodes now m).2 = validateCode s now m.
Proof.
  intros Hfind Hexp.
  destruct (list_find_filter (λ x, code x = s) (kept_at now)
              (preGeneratedCodes m) i c Hfind) as [j Hj]; [by left|].
  unfold validateCode, cleanExpiredCodes, find_code in *.
  cbn [snd with_codes preGeneratedCodes]. by rewrite Hj, Hfind.
Qed.

Lemma cleaning_keeps_verdict_witness :
  let old := mkCode "11111" 0 50 retiring 0 None in
  let c := mkCode "23456" 0 3600000 active 0 None in
  let m := mkManager [old; c] (λ _, 0) 0 in
  validateCode "23456" 100 (cleanExpiredCodes 100 m).2
  = validateCode "23456" 100 m.
Proof.
  intros old c m.
  apply (cleaning_keeps_verdict "23456" 100 m 1%nat c).
  - vm_compute. reflexivity.
  - simpl. lia.
Defined.

(** ** The shape of a code *)

Lemma pretty_N_char_digit x : is_digit (pretty_N_char x).
Proof.
  unfold pretty_N_char, is_digit.
  repeat case_match; vm_compute; lia.
Qed.

(** A number of five digits is written with five digits. *)
Lemma pretty_five_digits z :
  10000 ≤ z ≤ 99999 →
  String.length (pretty z) = 5%nat ∧
  Forall is_digit (String.list_ascii_of_string (pretty z)).
Proof.
  intros Hz. destruct z as [|p|p]; [lia| |lia].
  change (pretty (Z.pos p)) with (pretty (N.pos p)).
  unfold pretty, pretty_N. rewrite decide_False by done.
  assert (10000 ≤ N.pos p ≤ 99999)%N as Hp by lia.
  generalize dependent (N.pos p). intros x Hx.
  set (x1 := N.div x 10). set (x2 := N.div x1 10).
  set (x3 := N.div x2 10). set (x4 := N.div x3 10).
  assert (0 < x ∧ 0 < x1 ∧ 0 < x2 ∧ 0 < x3 ∧ 0 < x4 ∧ N.div x4 10 = 0)%N
    as (H0 & H1 & H2 & H3 & H4 & H5).
  { subst x1 x2 x3 x4. zify. Z.to_euclidean_division_equations. lia. }
  rewrite (pretty_N_go_step x) by done. fold x1.
  rewrite (pretty_N_go_step x1) by done. fold x2.
  rewrite (pretty_N_go_step x2) by done. fold x3.
  rewrite (pretty_N_go_step x3) by done. fold x4.
  rewrite (pretty_N_go_step x4) by done. rewrite H5.
  rewrite pretty_N_go_0. simpl. split; [done|].
  repeat (apply Forall_cons_2; [apply pretty_N_char_digit|]).
  apply Forall_nil_2.
Qed.

(** X11.  The code [generateUniqueCode] returns is the decimal numeral of a
    number from 10000 to 99999: a string of five digits. *)
Theorem generateUniqueCode_five_digits (m : CodeManager) :
  let s := (generateUniqueCode m).1 in
  (∃ z, 10000 ≤ z ≤ 99999 ∧ s = pretty z) ∧
  String.length s = 5%nat ∧
  Forall is_digit (String.list_ascii_of_string s).
Proof.
  intros s. subst s. unfold generateUniqueCode.
  destruct (draw_unique_spec (maxAttempts - 1) (preGeneratedCodes m)
              (entropy m) (draws m)) as (j & _ & -> & _ & _).
  cbn [fst]. unfold random_code.
  pose proof (Z.mod_pos_bound (entropy m (draws m + j)%nat) 90000 eq_refl).
  split; [|apply pretty_five_digits; lia].
  eexists. split; [|reflexivity]. lia.
Qed.

(** ** Drawing a code *)

(** X12.  [generateUniqueCode] leaves the pool alone and makes from 1 to
    [maxAttempts] draws; it returns the last one, every earlier one being a
    code of the pool.  The code returned is a code of the pool only if all
    [maxAttempts] draws were made. *)
Theorem generateUniqueCode_attempts (m : CodeManager) :
  let s := (generateUniqueCode m).1 in
  let m' := (generateUniqueCode m).2 in
  preGeneratedCodes m' = preGeneratedCodes m ∧
  entropy m' = entropy m ∧
  (draws m < draws m' ≤ draws m + maxAttempts)%nat ∧
  s = random_code (entropy m) (draws m' - 1) ∧
  (∀ k : nat, (draws m ≤ k < draws m' - 1)%nat →
     holds_code (preGeneratedCodes m) (random_code (entropy m) k) = true) ∧
  (holds_code (preGeneratedCodes m) s = true →
   draws m' = (draws m + maxAttempts)%nat).
Proof.
  intros s m'. subst s m'. unfold generateUniqueCode.
  destruct (draw_unique_spec (maxAttempts - 1) (preGeneratedCodes m)
              (entropy m) (draws m)) as (j & Hj & -> & Hbefore & Hlast).
  cbn [fst snd with_draws preGeneratedCodes entropy draws].
  unfold maxAttempts in *.
  split_and!; [done|done|lia|lia| | |].
  - f_equal. lia.
  - intros k Hk. replace k with (draws m + (k - draws m))%nat by lia.
    apply Hbefore. lia.
  - intros Hheld. destruct Hlast as [Hfree|Hall]; [congruence|lia].
Qed.

(** ** Generating codes *)

Lemma new_codes_lookup n i0 now m (j : nat) c :
  (new_codes n i0 now m).1 !! j = Some c →
  generated c = now + (i0 + Z.of_nat j) * 60000 ∧
  expires c = now + rotationInterval + (i0 + Z.of_nat j) * 60000 ∧
  status c = active ∧ uses c = 0 ∧ lastUsed c = None.
Proof.
  revert i0 m j. induction n as [|n IH]; intros i0 m j; simpl; [done|].
  destruct (generateUniqueCode m) as [s m1].
  specialize (IH (i0 + 1) m1).
  destruct (new_codes n (i0 + 1) now m1) as [cs m2]. simpl in *.
  destruct j as [|j]; simpl.
  - intros [= <-]. simpl. split_and!; [lia|lia|done|done|done].
  - intros Hj. destruct (IH j Hj) as (Hg & He & Hrest).
    split_and!; [lia|lia|apply Hrest..].
Qed.

Lemma generateNewCodes_fst count now m :
  (generateNewCodes count now m).1 = (new_codes count 0 now m).1.
Proof.
  unfold generateNewCodes. by destruct (new_codes count 0 now m).
Qed.

(** X13.  [generateNewCodes(count)] returns [count] records.  The record at
    index [i] is generated [i] minutes after [now] and expires an hour
    after that; every record is [active], unused and was never marked as
    used. *)
Theorem generateNewCodes_records (count : nat) (now : Z) (m : CodeManager) :
  let newCodes := (generateNewCodes count now m).1 in
  length newCodes = count ∧
  ∀ (i : nat) c, newCodes !! i = Some c →
    generated c = now + Z.of_nat i * 60000 ∧
    expires c = generated c + 3600000 ∧
    status c = active ∧ uses c = 0 ∧ lastUsed c = None.
Proof.
  intros newCodes. subst newCodes. rewrite generateNewCodes_fst. split.
  - apply new_codes_spec.
  - intros i c Hi.
    destruct (new_codes_lookup count 0 now m i c Hi) as (Hg & He & Hrest).
    unfold rotationInterval in He. split_and!; [lia|lia|apply Hrest..].
Qed.

(** X14.  After [generateNewCodes] the pool holds at most [maxCodes]
    records, each a record of the pool before or a new one; when the pool
    before and the new records fit in [maxCodes], the pool is the pool
    before followed by the new records. *)
Theorem generateNewCodes_pool (count : nat) (now : Z) (m : CodeManager) :
  let newCodes := (generateNewCodes count now m).1 in
  let pool' := preGeneratedCodes (generateNewCodes count now m).2 in
  (length pool' ≤ maxCodes)%nat ∧
  (∀ c, c ∈ pool' → c ∈ preGeneratedCodes m ∨ c ∈ newCodes) ∧
  ((length (preGeneratedCodes m) + count ≤ maxCodes)%nat →
   pool' = preGeneratedCodes m ++ newCodes).
Proof.
  intros newCodes pool'. subst newCodes pool'.
  split_and!.
  - unfold generateNewCodes. destruct (new_codes count 0 now m) as [cs m1].
    cbn [snd]. unfold trimCodeList. case_decide as Hlen.
    + cbn [with_codes preGeneratedCodes]. rewrite length_take. lia.
    + lia.
  - intros c. unfold generateNewCodes.
    pose proof (new_codes_spec count 0 now m) as (_ & Hp & _ & _).
    destruct (new_codes count 0 now m) as [cs m1]. cbn [fst snd] in *.
    unfold trimCodeList. cbn [with_codes preGeneratedCodes].
    case_decide as Hlen; cbn [with_codes preGeneratedCodes].
    + intros Hc. apply subseteq_take in Hc.
      rewrite sort_by_Permutation, Hp in Hc.
      by apply elem_of_app in Hc.
    + intros Hc. rewrite Hp in Hc. by apply elem_of_app in Hc.
  - intros Hfit. rewrite generateNewCodes_fst.
    by apply generateNewCodes_fits.
Qed.

Lemma generateNewCodes_elem_of count now m c :
  c ∈ preGeneratedCodes (generateNewCodes count now m).2 →
  c ∈ preGeneratedCodes m ∨ c ∈ (new_codes count 0 now m).1.
Proof.
  unfold generateNewCodes.
  pose proof (new_codes_spec count 0 now m) as (_ & Hp & _ & _).
  destruct (new_codes count 0 now m) as [cs m1]. cbn [fst snd] in *.
  unfold trimCodeList. cbn [with_codes preGeneratedCodes].
  case_decide as Hlen; cbn [with_codes preGeneratedCodes]; intros Hc.
  - apply subseteq_take in Hc. rewrite sort_by_Permutation, Hp in Hc.
    by apply elem_of_app in Hc.
  - rewrite Hp in Hc. by apply elem_of_app in Hc.
Qed.

Lemma new_codes_elem_of n i0 now m c :
  c ∈ (new_codes n i0 now m).1 →
  now + i0 * 60000 ≤ generated c ∧
  expires c = generated c + 3600000 ∧
  status c = active ∧ uses c = 0 ∧ lastUsed c = None.
Proof.
  intros [j Hj]%list_elem_of_lookup.
  destruct (new_codes_lookup n i0 now m j c Hj) as (Hg & He & Hrest).
  unfold rotationInterval in He. split_and!; [lia|lia|apply Hrest..].
Qed.

(** ** Maintenance *)

Lemma maintainCodePool_enough now m :
  (minActiveCodes ≤ length (getActiveCodes now m))%nat →
  maintainCodePool now m = m.
Proof. intros Hmin. unfold maintainCodePool. rewrite decide_False; [done|lia]. Qed.

(** X15.  When the pool and the codes missing fit in [maxCodes],
    [maintainCodePool] leaves [minActiveCodes] active codes or more, and a
    second call at the same reading of the clock changes nothing; with
    enough active codes already, the first call changes nothing either. *)
Theorem maintainCodePool_restores_minimum (now : Z) (m : CodeManager) :
  (length (preGeneratedCodes m)
   + (minActiveCodes - length (getActiveCodes now m)) ≤ maxCodes)%nat →
  (minActiveCodes ≤ length (getActiveCodes now (maintainCodePool now m)))%nat ∧
  maintainCodePool now (maintainCodePool now m) = maintainCodePool now m ∧
  ((minActiveCodes ≤ length (getActiveCodes now m))%nat →
   maintainCodePool now m = m).
Proof.
  intros Hfit.
  assert (minActiveCodes
          ≤ length (getActiveCodes now (maintainCodePool now m)))%nat as Hmin.
  { rewrite length_getActiveCodes. by apply maintainCodePool_minimum. }
  split_and!; [done| |apply maintainCodePool_enough].
  by apply maintainCodePool_enough.
Qed.

Lemma maintainCodePool_restores_minimum_witness :
  let m := mkManager [mkCode "23456" 0 3600000 active 0 None]
             (λ k, Z.of_nat k) 0 in
  (minActiveCodes ≤ length (getActiveCodes 100 (maintainCodePool 100 m)))%nat ∧
  maintainCodePool 100 (maintainCodePool 100 m) = maintainCodePool 100 m ∧
  ((minActiveCodes ≤ length (getActiveCodes 100 m))%nat →
   maintainCodePool 100 m = m).
Proof.
  intros m. apply (maintainCodePool_restores_minimum 100 m).
  vm_compute. lia.
Defined.

(** ** Rotation *)

Lemma retire_fields now c :
  code (retire now c) = code c ∧ generated (retire now c) = generated c ∧
  expires (retire now c) = expires c ∧ uses (retire now c) = uses c ∧
  lastUsed (retire now c) = lastUsed c ∧
  (status (retire now c) = status c ∨
   (status c = active ∧ status (retire now c) = retiring ∧
    expires c < now + 1800000)).
Proof.
  unfold retire. case_decide as Hsoon; simpl; split_and!; try done.
  - right. by destruct Hsoon.
  - by left.
Qed.

Lemma rotateActiveCodes_elem_of now m c' :
  c' ∈ preGeneratedCodes (rotateActiveCodes now m) →
  ∃ c, c' = retire now c ∧
    ((c ∈ preGeneratedCodes m ∧ kept_at now c) ∨
     (now ≤ generated c ∧ expires c = generated c + 3600000 ∧
      status c = active ∧ uses c = 0 ∧ lastUsed c = None)).
Proof.
  rewrite rotateActiveCodes_maintain. cbn [with_codes preGeneratedCodes].
  intros (c & -> & Hc)%list_elem_of_fmap. exists c. split; [done|].
  unfold maintainCodePool in Hc.
  assert (c ∈ preGeneratedCodes (cleanExpiredCodes now m).2 →
          c ∈ preGeneratedCodes m ∧ kept_at now c) as Hold.
  { unfold cleanExpiredCodes. cbn [snd with_codes preGeneratedCodes].
    rewrite list_elem_of_filter. tauto. }
  case_decide; [|left; by apply Hold].
  apply generateNewCodes_elem_of in Hc as [Hc|Hc]; [left; by apply Hold|].
  right. apply new_codes_elem_of in Hc. intuition lia.
Qed.

(** X16.  Every record of the pool after [rotateActiveCodes] comes from a
    record of the pool before that the cleaning kept, or from a record
    generated by the rotation, with the same code, times and uses; its
    status is the same, or it was [active], is [retiring] and expires
    less than thirty minutes after [now].  No record is turned to [active]
    or to [emergency]. *)
Theorem rotateActiveCodes_transitions (now : Z) (m : CodeManager)
    (c' : CodeRecord) :
  c' ∈ preGeneratedCodes (rotateActiveCodes now m) →
  ∃ c, ((c ∈ preGeneratedCodes m ∧ kept_at now c) ∨
        (now ≤ generated c ∧ status c = active ∧ uses c = 0)) ∧
    code c' = code c ∧ generated c' = generated c ∧
    expires c' = expires c ∧ uses c' = uses c ∧ lastUsed c' = lastUsed c ∧
    (status c' = status c ∨
     (status c = active ∧ status c' = retiring ∧ expires c < now + 1800000)).
Proof.
  intros (c & -> & Hc)%rotateActiveCodes_elem_of.
  exists c. split; [|apply retire_fields].
  destruct Hc as [Hold|Hnew]; [by left|right; tauto].
Qed.

Lemma rotateActiveCodes_transitions_witness :
  let c := mkCode "23456" 0 3600000 active 4 None in
  let m := mkManager (replicate 5 c) (λ _, 0) 0 in
  ∃ c0, ((c0 ∈ preGeneratedCodes m ∧ kept_at 2000000 c0) ∨
         (2000000 ≤ generated c0 ∧ status c0 = active ∧ uses c0 = 0)) ∧
    code (retire 2000000 c) = code c0 ∧
    generated (retire 2000000 c) = generated c0 ∧
    expires (retire 2000000 c) = expires c0 ∧
    uses (retire 2000000 c) = uses c0 ∧
    lastUsed (retire 2000000 c) = lastUsed c0 ∧
    (status (retire 2000000 c) = status c0 ∨
     (status c0 = active ∧ status (retire 2000000 c) = retiring ∧
      expires c0 < 2000000 + 1800000)).
Proof.
  intros c m.
  apply (rotateActiveCodes_transitions 2000000 m (retire 2000000 c)).
  apply list_elem_of_lookup. exists 0%nat. vm_compute. reflexivity.
Defined.

(** ** Statistics and the page of codes *)

Lemma rotateActiveCodes_active_later now m c :
  c ∈ preGeneratedCodes (rotateActiveCodes now m) → status c = active →
  now + 1800000 ≤ expires c.
Proof.
  intros (c0 & -> & _)%rotateActiveCodes_elem_of. unfold retire.
  case_decide as Hsoon; simpl; [done|]. intros Hact.
  destruct (decide (expires c0 < now + 1800000)); [|lia].
  destruct Hsoon. by split.
Qed.

(** X17.  [getCodeStats] never reports more codes expiring soon than active
    codes, nor more active codes than codes; right after a rotation, at the
    same reading of the clock, it reports no code expiring soon, and no
    code the page lists is labelled as expiring soon. *)
Theorem getCodeStats_after_rotation (now : Z) (m : CodeManager) :
  (expiringSoon (getCodeStats now m) ≤ activeCodes (getCodeStats now m))%nat ∧
  (activeCodes (getCodeStats now m) ≤ totalCodes (getCodeStats now m))%nat ∧
  expiringSoon (getCodeStats now (rotateActiveCodes now m)) = 0%nat ∧
  Forall (λ c, ¬ isExpiringSoon now c)
    (loadAndDisplayCodes now (Some (rotateActiveCodes now m))).
Proof.
  cbn [getCodeStats expiringSoon activeCodes totalCodes].
  assert (Forall (λ c, ¬ expires c < now + 1800000)
            (getActiveCodes now (rotateActiveCodes now m))) as Hlater.
  { apply Forall_forall. intros c [Hc [_ Hact]]%elem_of_getActiveCodes.
    pose proof (rotateActiveCodes_active_later now m c Hc Hact). lia. }
  split_and!.
  - apply length_filter.
  - rewrite length_getActiveCodes. apply length_filter.
  - by rewrite (filter_none _ _ Hlater).
  - unfold loadAndDisplayCodes. case_decide.
    + unfold generateStaticCodes, isExpiringSoon.
      repeat (apply Forall_cons_2; [simpl; lia|]). apply Forall_nil_2.
    + eapply Forall_impl; [exact Hlater|]. unfold isExpiringSoon.
      intros c. simpl. lia.
Qed.

(** ** An invariant of the pool *)

Lemma sound_use_once c : sound c → sound (use_once c).
Proof. unfold sound. simpl. intros (? & ? & ?). split_and!; [done|lia|lia]. Qed.

Lemma sound_use_at t c : sound c → sound (use_at t c).
Proof. unfold sound. simpl. intros (? & ? & ?). split_and!; [done|lia|lia]. Qed.

Lemma sound_retire now c : sound c → sound (retire now c).
Proof.
  unfold sound, retire. intros (? & ? & ?).
  case_decide; simpl; split_and!; done.
Qed.

Lemma sound_createInitialCodeSet now m :
  Forall sound (preGeneratedCodes (createInitialCodeSet now m)).
Proof.
  unfold createInitialCodeSet. cbn [with_codes preGeneratedCodes].
  repeat (apply Forall_cons_2;
          [unfold sound; simpl; split_and!; [lia|lia|discriminate]|]).
  apply Forall_nil_2.
Qed.

Lemma sound_generateNewCodes count now m :
  Forall sound (preGeneratedCodes m) →
  Forall sound (preGeneratedCodes (generateNewCodes count now m).2).
Proof.
  rewrite !Forall_forall. intros Hm c [Hc|Hc]%generateNewCodes_elem_of.
  - by apply Hm.
  - apply new_codes_elem_of in Hc as (_ & He & Hst & Hu & _).
    unfold sound. split_and!; [done|lia|congruence].
Qed.

Lemma sound_cleanExpiredCodes now m :
  Forall sound (preGeneratedCodes m) →
  Forall sound (preGeneratedCodes (cleanExpiredCodes now m).2).
Proof.
  rewrite !Forall_forall. unfold cleanExpiredCodes.
  cbn [snd with_codes preGeneratedCodes].
  intros Hm c [_ Hc]%list_elem_of_filter. by apply Hm.
Qed.

Lemma sound_maintainCodePool now m :
  Forall sound (preGeneratedCodes m) →
  Forall sound (preGeneratedCodes (maintainCodePool now m)).
Proof.
  intros Hm. unfold maintainCodePool. case_decide; [|done].
  by apply sound_generateNewCodes.
Qed.

(** One operation keeps the pool sound. *)
Lemma operation_sound m m' :
  operation m m' →
  Forall sound (preGeneratedCodes m) → Forall sound (preGeneratedCodes m').
Proof.
  destruct 1 as [now m|now m|count now m|now m c m' Hnext|s now m|now m|m
                 |now m|now m]; intros Hm.
  - apply sound_createInitialCodeSet.
  - apply sound_createInitialCodeSet.
  - by apply sound_generateNewCodes.
  - destruct (getNextCode_cases now m c m' Hnext) as (i & _ & [Hsel|Hnew]).
    + destruct Hsel as (c0 & _ & _ & _ & _ & ->).
      apply Forall_alter; [done|]. intros x _. apply sound_use_once.
    + destruct Hnew as (_ & _ & Hgen & ->).
      pose proof (generateEmergencyCode_record now m) as Hrec.
      rewrite <- Hgen in Hrec. simpl in Hrec.
      apply Forall_app. split; [done|].
      apply Forall_cons_2; [|apply Forall_nil_2].
      subst c. unfold sound. simpl. split_and!; [done|lia|lia].
  - unfold markCodeAsUsed. destruct (find_code s m) as [[i c]|]; [|done].
    cbn [with_codes preGeneratedCodes].
    apply Forall_alter; [done|]. intros x _. apply sound_use_at.
  - by apply sound_cleanExpiredCodes.
  - unfold trimCodeList. case_decide; [|done].
    cbn [with_codes preGeneratedCodes].
    rewrite Forall_forall in *. intros c Hc. apply Hm.
    apply subseteq_take in Hc. by rewrite sort_by_Permutation in Hc.
  - by apply sound_maintainCodePool.
  - rewrite rotateActiveCodes_maintain. cbn [with_codes preGeneratedCodes].
    apply Forall_fmap.
    eapply Forall_impl;
      [by apply sound_maintainCodePool, sound_cleanExpiredCodes|].
    intros c. apply sound_retire.
Qed.

(** X18.  Whatever methods are called in whatever order, short of
    [importCodes] and [loadPreGeneratedCodes], a pool of sound records stays
    one: every record expires exactly an hour after it was generated, has a
    count of uses that is not negative, and has been used if it is an
    [emergency] record. *)
Theorem sound_invariant (m m' : CodeManager) :
  rtc operation m m' →
  Forall sound (preGeneratedCodes m) →
  Forall sound (preGeneratedCodes m').
Proof.
  induction 1 as [m|m m1 m' Hop _ IH]; [done|].
  intros Hm. apply IH. by apply (operation_sound m m1).
Qed.

Lemma sound_invariant_witness :
  let m := mkManager [] (λ k, Z.of_nat k) 0 in
  Forall sound
    (preGeneratedCodes
       (markCodeAsUsed "10000" 50 (generateNewCodes 2 0 m).2)).
Proof.
  intros m.
  apply (sound_invariant m).
  - eapply rtc_l; [apply (op_generateNewCodes 2 0)|].
    apply rtc_once. apply op_markCodeAsUsed.
  - apply Forall_nil_2.
Defined.

(** ** Start-up *)

Lemma kept_createInitialCodeSet now m :
  Forall (is_active_at now) (preGeneratedCodes (createInitialCodeSet now m)).
Proof.
  unfold createInitialCodeSet. cbn [with_codes preGeneratedCodes].
  repeat (apply Forall_cons_2; [split; [simpl; lia|done]|]).
  apply Forall_nil_2.
Qed.

Lemma length_active_createInitialCodeSet now m :
  length (getActiveCodes now (createInitialCodeSet now m)) = 8%nat.
Proof.
  rewrite length_getActiveCodes.
  by rewrite (filter_all _ _ (kept_createInitialCodeSet now m)).
Qed.

(** X19.  What [savePreGeneratedCodes] stored is read back by
    [loadPreGeneratedCodes] as the pool saved less the records a cleaning
    at the time of loading removes; the pool the manager had before loading
    plays no part. *)
Theorem loadPreGeneratedCodes_saved (now : Z) (saved m : CodeManager) :
  ∃ m', loadPreGeneratedCodes (Parsed (savePreGeneratedCodes saved)) now m
        = Some m' ∧
    preGeneratedCodes m' = preGeneratedCodes (cleanExpiredCodes now saved).2 ∧
    (Forall (kept_at now) (preGeneratedCodes saved) →
     preGeneratedCodes m' = preGeneratedCodes saved).
Proof.
  unfold loadPreGeneratedCodes, savePreGeneratedCodes.
  rewrite (mapM_fmap_Some code_of_json json_of_code)
    by apply code_of_json_of_code.
  eexists. split; [reflexivity|].
  unfold cleanExpiredCodes. cbn [snd with_codes preGeneratedCodes].
  split; [done|]. apply filter_all.
Qed.

(** X20.  After [loadPreGeneratedCodes], of a stored array of code records
    or of anything that is not an array, the pool holds no record that a
    cleaning would remove.  When the store has no item, an item that does
    not parse, or a document that is not an array, the pool is the initial
    code set, all eight codes are active and [generateInitialCodes]
    schedules no generation. *)
Theorem loadPreGeneratedCodes_start (stored : StoredItem) (now : Z)
    (m m' : CodeManager) :
  loadPreGeneratedCodes stored now m = Some m' →
  Forall (kept_at now) (preGeneratedCodes m') ∧
  ((∀ elements, stored ≠ Parsed (JArr elements)) →
   m' = createInitialCodeSet now m ∧
   length (getActiveCodes now m') = 8%nat ∧
   generateInitialCodes now m' = None).
Proof.
  assert (Forall (kept_at now)
            (preGeneratedCodes (createInitialCodeSet now m))) as Hinit.
  { eapply Forall_impl; [apply kept_createInitialCodeSet|].
    intros c [Hexp _]. by left. }
  assert (generateInitialCodes now (createInitialCodeSet now m) = None)
    as Hnone.
  { unfold generateInitialCodes.
    rewrite length_active_createInitialCodeSet. done. }
  intros Hload.
  destruct stored as [| |[| | | |elements|]]; simpl in Hload;
    try (injection Hload as <-; split; [exact Hinit|];
         intros _; split_and!;
           [done|apply length_active_createInitialCodeSet|exact Hnone]).
  destruct (mapM code_of_json elements) as [l|]; [|done].
  simpl in Hload. injection Hload as <-. split.
  - cbn [with_codes preGeneratedCodes]. apply Forall_forall.
    by intros c [? _]%list_elem_of_filter.
  - intros Hnot. by destruct (Hnot elements).
Qed.

Lemma loadPreGeneratedCodes_start_witness :
  let m := mkManager [] (λ _, 0) 0 in
  Forall (kept_at 1000) (preGeneratedCodes (createInitialCodeSet 1000 m)) ∧
  ((∀ elements, Parsed (JObj []) ≠ Parsed (JArr elements)) →
   createInitialCodeSet 1000 m = createInitialCodeSet 1000 m ∧
   length (getActiveCodes 1000 (createInitialCodeSet 1000 m)) = 8%nat ∧
   generateInitialCodes 1000 (createInitialCodeSet 1000 m) = None).
Proof.
  intros m.
  apply (loadPreGeneratedCodes_start (Parsed (JObj [])) 1000 m
           (createInitialCodeSet 1000 m)).
  reflexivity.
Defined.

(** ** Reset *)

(** An array in order is left as it is by the sort. *)
Lemma sort_by_id {A} (cmp : A → A → Z) (l : list A) :
  StronglySorted (λ a b, cmp a b ≤ 0) l → sort_by cmp l = l.
Proof.
  induction 1 as [|x l Hl IH Hx]; [done|].
  simpl. rewrite IH. destruct Hx as [|y l' Hxy _]; [done|].
  simpl. by rewrite decide_True.
Qed.

Lemma activeRefs_createInitialCodeSet now m :
  activeRefs now (createInitialCodeSet now m)
  = imap (λ i c, (i, c)) (preGeneratedCodes (createInitialCodeSet now m)).
Proof.
  unfold activeRefs.
  rewrite (filter_all (λ r : nat * CodeRecord, is_active_at now r.2)).
  - apply sort_by_id. unfold createInitialCodeSet.
    cbn [with_codes preGeneratedCodes imap compose].
    repeat (apply SSorted_cons;
            [|repeat (apply Forall_cons_2; [simpl; lia|]); apply Forall_nil_2]).
    apply SSorted_nil.
  - pose proof (kept_createInitialCodeSet now m) as Hall.
    apply Forall_forall. intros [i c] Hic.
    apply elem_of_lookup_imap in Hic as (j & c' & [= -> ->] & Hj).
    rewrite Forall_forall in Hall. apply Hall.
    by eapply list_elem_of_lookup_2.
Qed.

(** X21.  [resetCodes] discards the pool, whatever it held.  At the time of
    the reset [getActiveCodes] returns the eight initial records, newest
    first, with eight different codes; [maintainCodePool] has nothing to
    generate, and [getNextCode] hands out the newest code, 45789, with one
    use, touching no other record. *)
Theorem resetCodes_fresh (now : Z) (m : CodeManager) :
  let m' := resetCodes now m in
  getActiveCodes now m' = preGeneratedCodes m' ∧
  length (preGeneratedCodes m') = 8%nat ∧
  NoDup (code <$> preGeneratedCodes m') ∧
  maintainCodePool now m' = m' ∧
  ∃ c, getNextCode now m'
       = Some (c, with_codes m' (alter use_once 0%nat (preGeneratedCodes m'))) ∧
    code c = "45789" ∧ uses c = 1.
Proof.
  intros m'. subst m'. unfold resetCodes.
  set (m0 := with_codes m []).
  pose proof (activeRefs_createInitialCodeSet now m0) as Hrefs.
  assert (getActiveCodes now (createInitialCodeSet now m0)
          = preGeneratedCodes (createInitialCodeSet now m0)) as Hactive.
  { unfold getActiveCodes. by rewrite Hrefs. }
  split_and!.
  - exact Hactive.
  - done.
  - cbn [createInitialCodeSet with_codes preGeneratedCodes fmap list_fmap code].
    refine (bool_decide_unpack _ _). vm_compute. exact I.
  - apply maintainCodePool_enough.
    rewrite length_active_createInitialCodeSet. unfold minActiveCodes. lia.
  - unfold getNextCode. rewrite Hrefs.
    rewrite decide_False by done.
    rewrite sort_by_id.
    + eexists. split; [reflexivity|]. done.
    + cbn [createInitialCodeSet with_codes preGeneratedCodes imap compose].
      repeat (apply SSorted_cons;
              [|repeat (apply Forall_cons_2; [simpl; lia|]);
                apply Forall_nil_2]).
      apply SSorted_nil.
Qed.

(** ** Import *)

(** X22.  A successful [importCodes] replaces the pool wholesale: the pool
    afterwards depends on the document and the time only, not on the pool
    before.  It holds no record a cleaning would remove, and the count
    reported is the number of elements of the document, which the cleaning
    may have reduced.  The random oracle is not touched. *)
Theorem importCodes_replaces (j : json) (now : Z) (m1 m2 m1' : CodeManager)
    (n : nat) :
  importCodes (Some j) now m1 = Some (Imported n, m1') →
  (∃ m2', importCodes (Some j) now m2 = Some (Imported n, m2') ∧
     preGeneratedCodes m2' = preGeneratedCodes m1') ∧
  Forall (kept_at now) (preGeneratedCodes m1') ∧
  (length (preGeneratedCodes m1') ≤ n)%nat ∧
  entropy m1' = entropy m1 ∧ draws m1' = draws m1.
Proof.
  unfold importCodes.
  destruct (member "codes" j) as [[| | | |codes|]|] eqn:Hmem;
    destruct j; try done.
  all: destruct (mapM code_of_json codes) as [l|] eqn:Hl; [|done].
  all: simpl; intros [= <- <-].
  all: cbn [with_codes preGeneratedCodes entropy draws].
  all: split_and!; [by eexists|..|done|done].
  all: try (apply Forall_forall; by intros c [? _]%list_elem_of_filter).
  all: apply mapM_Some_1, Forall2_length in Hl; rewrite Hl;
    apply length_filter.
Qed.

Lemma importCodes_replaces_witness :
  let c := mkCode "23456" 0 3600000 active 0 None in
  let old := mkCode "11111" 0 50 retiring 0 None in
  let j := JObj [("codes", JArr [json_of_code old; json_of_code c])] in
  let m1 := mkManager [] (λ _, 0) 0 in
  let m2 := mkManager [old] (λ _, 7) 3 in
  (∃ m2', importCodes (Some j) 100 m2 = Some (Imported 2, m2') ∧
     preGeneratedCodes m2' = preGeneratedCodes (with_codes m1 [c])) ∧
  Forall (kept_at 100) (preGeneratedCodes (with_codes m1 [c])) ∧
  (length (preGeneratedCodes (with_codes m1 [c])) ≤ 2)%nat ∧
  entropy (with_codes m1 [c]) = entropy m1 ∧
  draws (with_codes m1 [c]) = draws m1.
Proof.
  intros c old j m1 m2.
  apply (importCodes_replaces j 100 m1 m2 (with_codes m1 [c]) 2).
  vm_compute. reflexivity.
Defined.

(** X23.  On every input but an array under [codes] with an element that is
    not a code record: the failures of [importCodes] leave the manager as it
    was; it reports a caught exception exactly when [JSON.parse] throws or
    gives [null], and an invalid format exactly when the document has no
    array under [codes]; when it succeeds the document has such an array,
    and the count reported is its length. *)
Theorem importCodes_outcome (jsonData : option json) (now : Z)
    (m m' : CodeManager) (result : ImportResult) :
  importCodes jsonData now m = Some (result, m') →
  match result with
  | Thrown => m' = m ∧ (jsonData = None ∨ jsonData = Some JNull)
  | InvalidFormat =>
      m' = m ∧
      ∃ d, jsonData = Some d ∧ d ≠ JNull ∧
        ∀ codes, member "codes" d ≠ Some (JArr codes)
  | Imported n =>
      ∃ d codes, jsonData = Some d ∧
        member "codes" d = Some (JArr codes) ∧ n = length codes
  end.
Proof.
  unfold importCodes. destruct jsonData as [d|]; [|intros [= <- <-]; auto].
  destruct (member "codes" d) as [[| | | |codes|]|] eqn:Hmem;
    destruct d; try done.
  all: try (intros [= <- <-]; split; [done|]; eauto; fail).
  all: try (intros [= <- <-]; split; [done|];
            eexists; split_and!; [done|done|]; intros ?; congruence).
  all: destruct (mapM code_of_json codes) as [l|]; [|done].
  all: simpl; intros [= <- <-]; by eexists _, _.
Qed.

Lemma importCodes_outcome_witness :
  let m := mkManager [mkCode "23456" 0 3600000 active 0 None] (λ _, 0) 0 in
  m = m ∧
  ∃ d, Some (JObj [("version", JStr "1.0")]) = Some d ∧ d ≠ JNull ∧
    ∀ codes, member "codes" d ≠ Some (JArr codes).
Proof.
  intros m.
  apply (importCodes_outcome (Some (JObj [("version", JStr "1.0")])) 100 m m
           InvalidFormat).
  reflexivity.
Defined.

(** ** The page of codes *)

(** X24.  [loadAndDisplayCodes] never lists nothing: it lists the active
    codes of the manager when there are any, and its five static codes
    otherwise.  Every code listed is [active] and expires after [now]; a
    static code that the pool does not hold is not found by [validateCode],
    and marking it as used changes nothing. *)
Theorem loadAndDisplayCodes_never_empty (now t : Z)
    (codeManager : option CodeManager) :
  let listed := loadAndDisplayCodes now codeManager in
  listed ≠ [] ∧
  Forall (λ c, expires c > now ∧ status c = active) listed ∧
  ∀ m, codeManager = Some m →
    (getActiveCodes now m ≠ [] → listed = getActiveCodes now m) ∧
    (getActiveCodes now m = [] →
     listed = generateStaticCodes now ∧
     ∀ c, c ∈ listed → holds_code (preGeneratedCodes m) (code c) = false →
       validateCode (code c) now m = Invalid NotFound ∧
       markCodeAsUsed (code c) t m = m).
Proof.
  intros listed. subst listed.
  assert (Forall (is_active_at now) (generateStaticCodes now)) as Hstatic.
  { unfold generateStaticCodes.
    repeat (apply Forall_cons_2; [split; [simpl; lia|done]|]).
    apply Forall_nil_2. }
  unfold loadAndDisplayCodes. split_and!.
  - case_decide as Hlen; [done|]. intros Heq. by rewrite Heq in Hlen.
  - case_decide; [exact Hstatic|].
    destruct codeManager as [m|]; [|done].
    apply Forall_forall. by intros c [_ ?]%elem_of_getActiveCodes.
  - intros m ->. split.
    + intros Hne. rewrite decide_False; [done|].
      by intros ?%length_zero_iff_nil.
    + intros ->. simpl. split; [done|].
      intros c _ Hfree. apply find_code_None in Hfree. split.
      * unfold validateCode. by rewrite Hfree.
      * by apply markCodeAsUsed_unknown.
Qed.
